(** * figma_mcp relay: correlation table, delivery channel, event buffer,
      channel registry, snapshot diff and batch dispatch

    Shallow embedding of the relay server (the TypeScript module whose text
    starts at [let activeSocket: WebSocket | null = null;]) and the
    properties its specification states about it.

    Conventions of the embedding
    - JSON values received from the host or the agent are the inductive
      [JSON]; [undefined] (a missing property) is [None] of [option JSON].
      JavaScript numbers are represented by integers: the relay only uses
      them as timestamps, limits and counts.
    - The module-level variables of the server are the fields of the record
      [Relay]; the pieces of the runtime the module talks to (socket
      objects, armed timers, frames written, promise settlements) are
      further fields of the same record, so that every handler is a
      function [Relay -> Relay].
    - [Date.now()] and [Math.random()] are inputs of the handlers that call
      them. *)

From Stdlib Require Import ZArith String List Bool Lia.
From stdpp Require Import base tactics option list strings gmap.

Local Open Scope Z_scope.
Local Open Scope string_scope.
Local Open Scope list_scope.

(** ** JSON values and the JavaScript tests the handlers perform on them *)

#[local] Set Warnings "-register-all".

Inductive JSON : Type :=
| JNull
| JBool (b : bool)
| JNum (n : Z)
| JStr (s : string)
| JArr (items : list JSON)
| JObj (fields : list (string * JSON)).

(** [assoc k l]: first binding of [k] in an association list. *)
Fixpoint assoc {A : Type} (k : string) (l : list (string * A)) : option A :=
  match l with
  | [] => None
  | (k', v) :: rest => if String.eqb k k' then Some v else assoc k rest
  end.

(** [v.k] for a value that came out of [JSON.parse]: only objects carry the
    properties the relay reads; everything else yields [undefined]. *)
Definition prop (k : string) (v : JSON) : option JSON :=
  match v with
  | JObj fields => assoc k fields
  | _ => None
  end.

(** [o?.k] on a possibly undefined value. *)
Definition oprop (k : string) (o : option JSON) : option JSON :=
  match o with
  | Some v => prop k v
  | None => None
  end.

(** JavaScript truthiness of a JSON value. *)
Definition truthy (v : JSON) : bool :=
  match v with
  | JNull => false
  | JBool b => b
  | JNum n => negb (Z.eqb n 0)
  | JStr s => negb (String.eqb s "")
  | JArr _ => true
  | JObj _ => true
  end.

Definition otruthy (o : option JSON) : bool :=
  match o with
  | Some v => truthy v
  | None => false
  end.

(** [typeof o === "string" ? o : null] and its siblings. *)
Definition as_string (o : option JSON) : option string :=
  match o with
  | Some (JStr s) => Some s
  | _ => None
  end.

Definition as_number (o : option JSON) : option Z :=
  match o with
  | Some (JNum n) => Some n
  | _ => None
  end.

Definition as_array (o : option JSON) : option (list JSON) :=
  match o with
  | Some (JArr l) => Some l
  | _ => None
  end.

(** [o === true] *)
Definition is_true (o : option JSON) : bool :=
  match o with
  | Some (JBool true) => true
  | _ => false
  end.

(** ** Data model *)

(** An entry of [eventBuffer]. *)
Record Event : Type := mkEvent {
  ev_id : string;
  ev_event : string;
  ev_payload : option JSON;
  ev_timestamp : Z;
  ev_channel : string
}.

(** [type QueuedRequest]; the [type] field is the constant ["request"]. *)
Record QueuedRequest : Type := mkRequest {
  rq_id : string;
  rq_method : string;
  rq_params : JSON;
  rq_channel : string
}.

(** ** Runtime objects the relay holds references to *)

(** [WebSocket.readyState] *)
Inductive ReadyState : Type := CONNECTING | OPEN | CLOSING | CLOSED.

(** A value of the [pending] map: [{ resolve, reject, timer }].  The pair
    [resolve]/[reject] is the pair of settling functions of one promise and
    is represented by the number of that promise; [timer] is the handle
    returned by [setTimeout]. *)
Record PendingEntry : Type := mkEntry {
  pe_promise : nat;
  pe_timer : nat
}.

(** The callback given to [setTimeout] in [sendToPlugin]:
    [() => { pending.delete(id); reject(new Error(...)) }], a closure over
    the correlation id and the [reject] of the promise being built. *)
Record TimerTask : Type := mkTask {
  tt_id : string;
  tt_promise : nat
}.

(** Argument of the [Error] a promise is rejected with. *)
Inductive RelayError : Type :=
| PluginError (message : JSON)  (** [message.error.message || "Plugin error"] *)
| PluginDisconnected            (** ["Plugin disconnected"] *)
| TimeoutAfter (ms : Z).        (** [`Timeout after ${REQUEST_TIMEOUT_MS}ms`] *)

(** One invocation of a promise's [resolve] or [reject]. *)
Inductive Settlement : Type :=
| Resolved (value : option JSON)
| Rejected (error : RelayError).

(** What the relay writes on a socket with [socket.send(JSON.stringify(..))]. *)
Inductive Frame : Type :=
| FReady (connectionId : nat)
| FRequest (payload : QueuedRequest).

(** ** The relay state

    The first seven fields are the module-level variables of the server.
    The other five are the part of the runtime they refer to:
    [sockets] holds the [readyState] of every socket object created so far
    (a socket is named by the connection id the server gave it), [timers]
    the timeouts that are armed, [wire] the frames written so far, [settled]
    the calls made so far to the [resolve]/[reject] functions of the
    promises created by [sendToPlugin] (oldest first), and [nextHandle] the
    number the next promise and its timer will get. *)
Record Relay : Type := mkRelay {
  activeSocket : option nat;
  socketId : nat;
  activeChannel : string;
  channels : list string;
  requestQueue : list QueuedRequest;
  pending : list (string * PendingEntry);
  eventBuffer : list Event;
  sockets : gmap nat ReadyState;
  timers : list (nat * TimerTask);
  wire : list (nat * Frame);
  settled : list (nat * Settlement);
  nextHandle : nat
}.

Definition set_activeSocket (x : option nat) (st : Relay) : Relay :=
  mkRelay x (socketId st) (activeChannel st) (channels st) (requestQueue st) (pending st) (eventBuffer st) (sockets st) (timers st) (wire st) (settled st) (nextHandle st).

Definition set_socketId (x : nat) (st : Relay) : Relay :=
  mkRelay (activeSocket st) x (activeChannel st) (channels st) (requestQueue st) (pending st) (eventBuffer st) (sockets st) (timers st) (wire st) (settled st) (nextHandle st).

Definition set_activeChannel (x : string) (st : Relay) : Relay :=
  mkRelay (activeSocket st) (socketId st) x (channels st) (requestQueue st) (pending st) (eventBuffer st) (sockets st) (timers st) (wire st) (settled st) (nextHandle st).

Definition set_channels (x : list string) (st : Relay) : Relay :=
  mkRelay (activeSocket st) (socketId st) (activeChannel st) x (requestQueue st) (pending st) (eventBuffer st) (sockets st) (timers st) (wire st) (settled st) (nextHandle st).

Definition set_requestQueue (x : list QueuedRequest) (st : Relay) : Relay :=
  mkRelay (activeSocket st) (socketId st) (activeChannel st) (channels st) x (pending st) (eventBuffer st) (sockets st) (timers st) (wire st) (settled st) (nextHandle st).

Definition set_pending (x : list (string * PendingEntry)) (st : Relay) : Relay :=
  mkRelay (activeSocket st) (socketId st) (activeChannel st) (channels st) (requestQueue st) x (eventBuffer st) (sockets st) (timers st) (wire st) (settled st) (nextHandle st).

Definition set_eventBuffer (x : list Event) (st : Relay) : Relay :=
  mkRelay (activeSocket st) (socketId st) (activeChannel st) (channels st) (requestQueue st) (pending st) x (sockets st) (timers st) (wire st) (settled st) (nextHandle st).

Definition set_sockets (x : gmap nat ReadyState) (st : Relay) : Relay :=
  mkRelay (activeSocket st) (socketId st) (activeChannel st) (channels st) (requestQueue st) (pending st) (eventBuffer st) x (timers st) (wire st) (settled st) (nextHandle st).

Definition set_timers (x : list (nat * TimerTask)) (st : Relay) : Relay :=
  mkRelay (activeSocket st) (socketId st) (activeChannel st) (channels st) (requestQueue st) (pending st) (eventBuffer st) (sockets st) x (wire st) (settled st) (nextHandle st).

Definition set_wire (x : list (nat * Frame)) (st : Relay) : Relay :=
  mkRelay (activeSocket st) (socketId st) (activeChannel st) (channels st) (requestQueue st) (pending st) (eventBuffer st) (sockets st) (timers st) x (settled st) (nextHandle st).

Definition set_settled (x : list (nat * Settlement)) (st : Relay) : Relay :=
  mkRelay (activeSocket st) (socketId st) (activeChannel st) (channels st) (requestQueue st) (pending st) (eventBuffer st) (sockets st) (timers st) (wire st) x (nextHandle st).

Definition set_nextHandle (x : nat) (st : Relay) : Relay :=
  mkRelay (activeSocket st) (socketId st) (activeChannel st) (channels st) (requestQueue st) (pending st) (eventBuffer st) (sockets st) (timers st) (wire st) (settled st) x.

(** The state when the module has been loaded. *)
Definition initial : Relay :=
  mkRelay None 0 "default" ["default"] [] [] [] ∅ [] [] [] 0.

(** ** [Map<string, V>] and [Set<string>] with their insertion order *)

Definition Map_get {V : Type} (k : string) (m : list (string * V)) : option V :=
  assoc k m.

Definition Map_has {V : Type} (k : string) (m : list (string * V)) : bool :=
  match assoc k m with Some _ => true | None => false end.

(** [m.set(k, v)]: an existing key keeps its position. *)
Fixpoint Map_set {V : Type} (k : string) (v : V) (m : list (string * V))
  : list (string * V) :=
  match m with
  | [] => [(k, v)]
  | (k', v') :: rest =>
      if String.eqb k k' then (k, v) :: rest else (k', v') :: Map_set k v rest
  end.

Definition Map_delete {V : Type} (k : string) (m : list (string * V))
  : list (string * V) :=
  List.filter (fun kv => negb (String.eqb k (fst kv))) m.

Definition Set_has (x : string) (s : list string) : bool :=
  existsb (String.eqb x) s.

Definition Set_add (x : string) (s : list string) : list string :=
  if Set_has x s then s else s ++ [x].

Definition Set_delete (x : string) (s : list string) : list string :=
  List.filter (fun y => negb (String.eqb x y)) s.

(** ** Promises and timers *)

(** [clearTimeout(handle)] *)
Definition clearTimeout (handle : nat) (st : Relay) : Relay :=
  set_timers (List.filter (fun t => negb (Nat.eqb handle (fst t))) (timers st)) st.

(** A call of [resolve] or [reject] of promise [p]. *)
Definition settle (p : nat) (s : Settlement) (st : Relay) : Relay :=
  set_settled (settled st ++ [(p, s)]) st.

(** The armed task of a timer handle. *)
Fixpoint timer_task (handle : nat) (ts : list (nat * TimerTask)) : option TimerTask :=
  match ts with
  | [] => None
  | (h, task) :: rest => if Nat.eqb handle h then Some task else timer_task handle rest
  end.

(** ** Event buffer *)

Section EventBuffer.

(** [const MAX_EVENTS = Number(process.env.FIGMA_MCP_MAX_EVENTS || 200)] *)
Variable MAX_EVENTS : Z.

(** [a.splice(0, deleteCount)]: the array after the call.  The delete
    count is clamped to the range [0 .. a.length]. *)
Definition splice_front {A : Type} (deleteCount : Z) (a : list A) : list A :=
  drop (Z.to_nat (Z.min (Z.max deleteCount 0) (Z.of_nat (length a)))) a.

Definition pushEvent (entry : Event) (eventBuffer : list Event) : list Event :=
  let eventBuffer := eventBuffer ++ [entry] in
  if Z.of_nat (length eventBuffer) >? MAX_EVENTS
  then splice_front (Z.of_nat (length eventBuffer) - MAX_EVENTS) eventBuffer
  else eventBuffer.

(** The buffer after a sequence of appends, oldest first. *)
Definition pushEvents (entries : list Event) (eventBuffer : list Event) : list Event :=
  fold_left (fun buf e => pushEvent e buf) entries eventBuffer.

(** The last [n] elements of a list, in their order. *)
Definition last_n {A : Type} (n : nat) (l : list A) : list A :=
  drop (length l - n)%nat l.

End EventBuffer.

(** ** Correlation table, delivery channel and inbound messages *)

Section Server.

(** [const REQUEST_TIMEOUT_MS = Number(process.env.FIGMA_MCP_TIMEOUT_MS || 15000)]
    and [MAX_EVENTS] as above. *)
Variable REQUEST_TIMEOUT_MS : Z.
Variable MAX_EVENTS : Z.

(** [a || b] on values *)
Definition or_else (a : option JSON) (b : JSON) : JSON :=
  match a with
  | Some v => if truthy v then v else b
  | None => b
  end.

Definition handleResponseMessage (message : JSON) (st : Relay) : Relay :=
  if negb (truthy message) then st else
  match as_string (prop "id" message) with
  | None => st
  | Some id =>
      match Map_get id (pending st) with
      | None => st
      | Some entry =>
          let st := clearTimeout (pe_timer entry) st in
          let st := set_pending (Map_delete id (pending st)) st in
          if otruthy (prop "error" message)
          then settle (pe_promise entry)
                 (Rejected (PluginError
                    (or_else (oprop "message" (prop "error" message))
                             (JStr "Plugin error")))) st
          else settle (pe_promise entry) (Resolved (prop "result" message)) st
      end
  end.

(** [channelOverride || activeChannel] for an optional string *)
Definition override_or (channelOverride : option string) (active : string) : string :=
  match channelOverride with
  | Some c => if String.eqb c "" then active else c
  | None => active
  end.

(** [freshId] is the value of
    [`${Date.now()}-${Math.random().toString(16).slice(2)}`] and [now]
    the value of the second [Date.now()]. *)
Definition handleEventMessage (freshId : string) (now : Z)
    (message : JSON) (channelOverride : option string) (st : Relay) : Relay :=
  if negb (truthy message) then st else
  match as_string (prop "event" message) with
  | None => st
  | Some name =>
      set_eventBuffer
        (pushEvent MAX_EVENTS
           {| ev_id := freshId;
              ev_event := name;
              ev_payload := prop "payload" message;
              ev_timestamp :=
                match as_number (prop "timestamp" message) with
                | Some t => t
                | None => now
                end;
              ev_channel := override_or channelOverride (activeChannel st) |}
           (eventBuffer st)) st
  end.

(** [activeSocket && activeSocket.readyState === WebSocket.OPEN] *)
Definition push_target (st : Relay) : option nat :=
  match activeSocket st with
  | Some s =>
      match sockets st !! s with
      | Some OPEN => Some s
      | _ => None
      end
  | None => None
  end.

(** [sendToPlugin(method, params)] up to the return of the promise.  [id]
    is the correlation id the function draws.  The result is the state
    after the promise's executor has run, and the number of the promise
    returned to the caller. *)
Definition sendToPlugin (id : string) (method : string) (params : JSON)
    (st : Relay) : Relay * nat :=
  let payload := mkRequest id method params (activeChannel st) in
  let p := nextHandle st in
  let st := set_nextHandle (S p) st in
  let st := set_timers (timers st ++ [(p, mkTask id p)]) st in
  let st := set_pending (Map_set id (mkEntry p p) (pending st)) st in
  match push_target st with
  | Some s => (set_wire (wire st ++ [(s, FRequest payload)]) st, p)
  | None => (set_requestQueue (requestQueue st ++ [payload]) st, p)
  end.

(** Expiry of the timeout [handle]: the runtime runs the callback of an
    armed timer once; a cleared or already fired timer does nothing. *)
Definition onTimeout (handle : nat) (st : Relay) : Relay :=
  match timer_task handle (timers st) with
  | None => st
  | Some task =>
      let st := clearTimeout handle st in
      let st := set_pending (Map_delete (tt_id task) (pending st)) st in
      settle (tt_promise task) (Rejected (TimeoutAfter REQUEST_TIMEOUT_MS)) st
  end.

(** [wss.on("connection", (socket) => ...)] for a socket the server has
    just accepted. *)
Definition onConnection (st : Relay) : Relay :=
  let id := S (socketId st) in
  let st := set_socketId id st in
  let st := set_sockets (<[id := OPEN]> (sockets st)) st in
  let st := set_activeSocket (Some id) st in
  set_wire (wire st ++ [(id, FReady id)]) st.

(** [socket.on("message", ...)]; [parsed] is [JSON.parse(data.toString())],
    [None] when it throws. *)
Definition onMessage (freshId : string) (now : Z) (parsed : option JSON)
    (st : Relay) : Relay :=
  match parsed with
  | None => st
  | Some message =>
      if negb (truthy message) then st else
      match as_string (prop "type" message) with
      | None => st
      | Some type =>
          if String.eqb type "response" then handleResponseMessage message st
          else if String.eqb type "event"
          then handleEventMessage freshId now message (Some (activeChannel st)) st
          else st
      end
  end.

(** Body of the loop of the close handler. *)
Definition failEntry (st : Relay) (kv : string * PendingEntry) : Relay :=
  let st := clearTimeout (pe_timer (snd kv)) st in
  let st := set_pending (Map_delete (fst kv) (pending st)) st in
  settle (pe_promise (snd kv)) (Rejected PluginDisconnected) st.

(** [socket.on("close", ...)] of the socket [socket].  The loop visits the
    entries of [pending] in insertion order; it deletes only the entry it
    is visiting. *)
Definition onClose (socket : nat) (st : Relay) : Relay :=
  let st :=
    match activeSocket st with
    | Some s => if Nat.eqb s socket then set_activeSocket None st else st
    | None => st
    end in
  fold_left failEntry (pending st) st.

(** The closure of a socket as the runtime performs it: the socket object
    becomes [CLOSED], then its close handler runs. *)
Definition socketClosed (socket : nat) (st : Relay) : Relay :=
  onClose socket (set_sockets (<[socket := CLOSED]> (sockets st)) st).

(** [GET /pull]: the response (status, body) and the state. *)
Definition httpPull (st : Relay) : (nat * option QueuedRequest) * Relay :=
  match requestQueue st with
  | [] => ((204%nat, None), st)
  | next :: rest => ((200%nat, Some next), set_requestQueue rest st)
  end.

(** [POST /push]; [parsed] is [body ? JSON.parse(body) : {}], [None] when
    it throws.  The result is the status and the state. *)
Definition httpPush (parsed : option JSON) (st : Relay) : nat * Relay :=
  match parsed with
  | None => (400%nat, st)
  | Some message => (200%nat, handleResponseMessage message st)
  end.

(** [POST /event] *)
Definition httpEvent (freshId : string) (now : Z) (parsed : option JSON)
    (st : Relay) : nat * Relay :=
  match parsed with
  | None => (400%nat, st)
  | Some message =>
      (200%nat, handleEventMessage freshId now message (Some (activeChannel st)) st)
  end.

End Server.

(** ** Local tools: events and channels *)

(** Result of [getEvents]. *)
Record EventsResult : Type := mkEventsResult {
  er_channel : string;
  er_total : nat;
  er_returned : nat;
  er_events : list Event
}.

(** [s || t] on strings *)
Definition str_or (s : option string) (t : string) : string :=
  match s with
  | Some c => if String.eqb c "" then t else c
  | None => t
  end.

(** A string used as a condition: [if (channel)] *)
Definition str_truthy (s : option string) : bool :=
  match s with
  | Some c => negb (String.eqb c "")
  | None => false
  end.

Definition getEvents (params : JSON) (st : Relay) : EventsResult * Relay :=
  let limit :=
    match as_number (prop "limit" params) with
    | Some n => if n >? 0 then n else Z.of_nat (length (eventBuffer st))
    | None => Z.of_nat (length (eventBuffer st))
    end in
  let since := as_number (prop "since" params) in
  let clear := is_true (prop "clear" params) in
  let channel := as_string (prop "channel" params) in
  let events := eventBuffer st in
  let events :=
    match channel with
    | Some c =>
        if str_truthy channel
        then List.filter (fun event => String.eqb (ev_channel event) c) events
        else events
    | None => events
    end in
  let events :=
    match since with
    | Some t => List.filter (fun event => ev_timestamp event >=? t) events
    | None => events
    end in
  let events :=
    if Z.ltb limit (Z.of_nat (length events))
    then drop (Z.to_nat (Z.of_nat (length events) - limit)) events
    else events in
  let result :=
    {| er_channel := str_or channel (activeChannel st);
       er_total := length (eventBuffer st);
       er_returned := length events;
       er_events := events |} in
  (result, if clear then set_eventBuffer [] st else st).

(** Result of [clearEvents]: [{ cleared }] or [{ cleared, channel }]. *)
Record ClearResult : Type := mkClearResult {
  cr_cleared : nat;
  cr_channel : option string
}.

Definition clearEvents (params : JSON) (st : Relay) : ClearResult * Relay :=
  let channel := as_string (prop "channel" params) in
  let all :=
    ({| cr_cleared := length (eventBuffer st); cr_channel := None |},
     set_eventBuffer [] st) in
  match channel with
  | Some c =>
      if negb (str_truthy channel) then all
      else
        let before := length (eventBuffer st) in
        let kept :=
          List.filter (fun event => negb (String.eqb (ev_channel event) c))
            (eventBuffer st) in
        ({| cr_cleared := (before - length kept)%nat; cr_channel := channel |},
         set_eventBuffer kept st)
  | None => all
  end.

(** Result of [listChannels]. *)
Record ChannelsResult : Type := mkChannelsResult {
  lc_activeChannel : string;
  lc_channels : list string;
  lc_counts : gmap string nat
}.

Definition listChannels (st : Relay) : ChannelsResult :=
  let counts :=
    fold_left
      (fun (counts : gmap string nat) event =>
         <[ev_channel event := (default 0%nat (counts !! ev_channel event) + 1)%nat]> counts)
      (eventBuffer st) (∅ : gmap string nat) in
  {| lc_activeChannel := activeChannel st;
     lc_channels := channels st;
     lc_counts := counts |}.

(** [joinChannel]: the returned [{ channel: activeChannel }] and the state. *)
Definition joinChannel (channel : string) (st : Relay) : string * Relay :=
  let st := set_channels (Set_add channel (channels st)) st in
  let st := set_activeChannel channel st in
  (activeChannel st, st).

(** [leaveChannel]: the returned [{ activeChannel, left }] and the state. *)
Definition leaveChannel (channel : string) (clear : bool) (st : Relay)
  : (string * string) * Relay :=
  let st :=
    if negb (String.eqb channel "default")
    then set_channels (Set_delete channel (channels st)) st
    else st in
  let st :=
    if clear
    then snd (clearEvents (JObj [("channel", JStr channel)]) st)
    else st in
  let st :=
    if String.eqb (activeChannel st) channel
    then set_activeChannel "default" st
    else st in
  ((activeChannel st, channel), st).

(** ** Snapshot diff *)

Definition normalizeSnapshotInput (input : option JSON) : list JSON :=
  match input with
  | Some (JArr nodes) => nodes
  | Some (JObj fields) =>
      match assoc "nodes" fields with
      | Some (JArr nodes) => nodes
      | _ => []
      end
  | _ => []
  end.

(** An element of [changed]: [{ id, fields }] where [fields] maps a field
    name to [{ before, after }]. *)
Record Change : Type := mkChange {
  ch_id : string;
  ch_fields : list (string * (option JSON * option JSON))
}.

Record DiffResult : Type := mkDiffResult {
  addedCount : nat;
  removedCount : nat;
  changedCount : nat;
  added : list JSON;
  removed : list JSON;
  changed : list Change
}.

(** [Object.keys(node)] of an object. *)
Definition Object_keys (node : JSON) : list string :=
  match node with
  | JObj fields => map fst fields
  | _ => []
  end.

(** [new Set<string>(keys)] as the sequence it is iterated in. *)
Definition Set_of (keys : list string) : list string :=
  fold_left (fun s k => Set_add k s) keys [].

(** [a !== b] on the results of [JSON.stringify]. *)
Definition text_differs (a b : option string) : bool :=
  match a, b with
  | Some x, Some y => negb (String.eqb x y)
  | None, None => false
  | _, _ => true
  end.

Section Diff.

(** [JSON.stringify] of the runtime; [None] is [undefined], which it both
    accepts and returns. *)
Variable stringify : option JSON -> option string.

(** The loops [for (const node of nodes) if (node && typeof node.id ===
    "string") map.set(node.id, node)]. *)
Definition indexNodes (nodes : list JSON) : list (string * JSON) :=
  fold_left
    (fun m node =>
       if truthy node
       then match as_string (prop "id" node) with
            | Some id => Map_set id node m
            | None => m
            end
       else m)
    nodes [].

(** The inner loop over [keys]. *)
Definition changedFields (ignoreFields : list string) (beforeNode afterNode : JSON)
  : list (string * (option JSON * option JSON)) :=
  let keys := Set_of (Object_keys beforeNode ++ Object_keys afterNode) in
  fold_left
    (fun fields key =>
       if existsb (String.eqb key) ignoreFields then fields
       else
         let beforeValue := prop key beforeNode in
         let afterValue := prop key afterNode in
         if text_differs (stringify beforeValue) (stringify afterValue)
         then Map_set key (beforeValue, afterValue) fields
         else fields)
    keys [].

Definition diffSnapshots (params : JSON) : DiffResult :=
  let beforeNodes := normalizeSnapshotInput (prop "before" params) in
  let afterNodes := normalizeSnapshotInput (prop "after" params) in
  let ignoreFields :=
    match prop "ignoreFields" params with
    | Some (JArr items) => omap (fun item => as_string (Some item)) items
    | _ => ["children"]
    end in
  let beforeMap := indexNodes beforeNodes in
  let afterMap := indexNodes afterNodes in
  let added :=
    map snd (List.filter (fun kv => negb (Map_has (fst kv) beforeMap)) afterMap) in
  let removed :=
    map snd (List.filter (fun kv => negb (Map_has (fst kv) afterMap)) beforeMap) in
  let changed :=
    fold_left
      (fun changed kv =>
         match Map_get (fst kv) afterMap with
         | None => changed
         | Some afterNode =>
             if negb (truthy afterNode) then changed
             else
               let fields := changedFields ignoreFields (snd kv) afterNode in
               if (0 <? length fields)%nat
               then changed ++ [mkChange (fst kv) fields]
               else changed
         end)
      beforeMap [] in
  {| addedCount := length added;
     removedCount := length removed;
     changedCount := length changed;
     added := added;
     removed := removed;
     changed := changed |}.

End Diff.

(** ** Tool dispatch and batch execution *)

(** What a tool call evaluates to. *)
Inductive ToolResult : Type :=
| REvents (r : EventsResult)
| RCleared (r : ClearResult)
| RJoined (channel : string)
| RLeft (activeChannel left : string)
| RChannels (r : ChannelsResult)
| RDiff (r : DiffResult)
| RForwarded (value : option JSON).

(** An element of [results] of [runBatchCalls]:
    [{ index, ok, name?, result?, error? }]. *)
Record BatchEntry : Type := mkBatchEntry {
  be_index : nat;
  be_ok : bool;
  be_name : option string;
  be_result : option ToolResult;
  be_error : option string
}.

Record BatchResult : Type := mkBatchResult {
  br_total : nat;
  br_returned : nat;
  br_results : list BatchEntry
}.

Section Dispatcher.

Variable stringify : option JSON -> option string.

(** [s.trim().length > 0] of the runtime. *)
Variable trimmed_nonempty : string -> bool.

(** [await sendToPlugin(method, params)] as one transition: the state of
    the relay when the awaiting function resumes, and the settlement it
    resumes with ([inl] the message of the error thrown at the [await],
    [inr] the value).  Every promise of [sendToPlugin] is settled, by its
    timer at the latest. *)
Variable awaitPlugin : string -> JSON -> Relay -> Relay * (string + option JSON).

(** [await exportImageToFile(args)], which forwards one call and writes a
    file; taken whole. *)
Variable exportImageToFile : JSON -> Relay -> Relay * (string + option JSON).

(** [typeof args.channel === "string" && args.channel.trim().length > 0
     ? args.channel : null] *)
Definition channelArg (args : JSON) : option string :=
  match as_string (prop "channel" args) with
  | Some c => if trimmed_nonempty c then Some c else None
  | None => None
  end.

(** [await executeTool(name, args)]; [inl] is the message of a thrown
    error. *)
Definition executeTool (name : string) (args : JSON) (st : Relay)
  : Relay * (string + ToolResult) :=
  if String.eqb name "get_events" then
    let '(r, st) := getEvents args st in (st, inr (REvents r))
  else if String.eqb name "clear_events" then
    let '(r, st) := clearEvents args st in (st, inr (RCleared r))
  else if String.eqb name "join_channel" then
    match channelArg args with
    | None => (st, inl "channel must be a non-empty string")
    | Some channel =>
        let '(r, st) := joinChannel channel st in (st, inr (RJoined r))
    end
  else if String.eqb name "leave_channel" then
    match channelArg args with
    | None => (st, inl "channel must be a non-empty string")
    | Some channel =>
        let '(r, st) := leaveChannel channel (is_true (prop "clear" args)) st in
        (st, inr (RLeft (fst r) (snd r)))
    end
  else if String.eqb name "list_channels" then (st, inr (RChannels (listChannels st)))
  else if String.eqb name "diff_snapshots" then (st, inr (RDiff (diffSnapshots stringify args)))
  else if String.eqb name "export_image_to_file" then
    let '(st, r) := exportImageToFile args st in
    (st, match r with inl e => inl e | inr v => inr (RForwarded v) end)
  else
    let '(st, r) := awaitPlugin name args st in
    (st, match r with inl e => inl e | inr v => inr (RForwarded v) end).

(** [call.arguments && typeof call.arguments === "object" ? call.arguments : {}] *)
Definition callArguments (call : JSON) : JSON :=
  match prop "arguments" call with
  | Some (JObj fields) => JObj fields
  | Some (JArr items) => JArr items
  | _ => JObj []
  end.

(** The [for] loop of [runBatchCalls] from index [i] on, [calls] being
    the entries not yet visited. *)
Fixpoint batchLoop (stopOnError : bool) (i : nat) (calls : list JSON)
    (results : list BatchEntry) (st : Relay) : Relay * list BatchEntry :=
  match calls with
  | [] => (st, results)
  | call :: rest =>
      match (if truthy call then as_string (prop "name" call) else None) with
      | None =>
          let results :=
            results ++ [mkBatchEntry i false None None (Some "Invalid call.name")] in
          if stopOnError then (st, results)
          else batchLoop stopOnError (S i) rest results st
      | Some name =>
          if String.eqb name "batch_calls" then
            let results :=
              results ++ [mkBatchEntry i false None None
                            (Some "Nested batch_calls is not supported")] in
            if stopOnError then (st, results)
            else batchLoop stopOnError (S i) rest results st
          else
            match executeTool name (callArguments call) st with
            | (st, inr result) =>
                batchLoop stopOnError (S i) rest
                  (results ++ [mkBatchEntry i true (Some name) (Some result) None]) st
            | (st, inl message) =>
                let results :=
                  results ++ [mkBatchEntry i false (Some name) None (Some message)] in
                if stopOnError then (st, results)
                else batchLoop stopOnError (S i) rest results st
            end
      end
  end.

(** [await runBatchCalls(params)]; [inl] is the message of a thrown error. *)
Definition runBatchCalls (params : JSON) (st : Relay)
  : Relay * (string + BatchResult) :=
  match as_array (prop "calls" params) with
  | None => (st, inl "calls must be an array")
  | Some calls =>
      let stopOnError := is_true (prop "stopOnError" params) in
      let '(st, results) := batchLoop stopOnError 0 calls [] st in
      (st, inr {| br_total := length calls;
                  br_returned := length results;
                  br_results := results |})
  end.

End Dispatcher.

(** ** The relay as a reactive system

    Everything that makes the relay run: the host connects, sends a frame,
    disconnects or polls; a timer expires; a tool handler forwards a call
    or runs one of the local tools that write to the module's variables.
    A handler runs to completion before the next input is taken. *)

Inductive Input : Type :=
| IConnect
| IMessage (socket : nat) (freshId : string) (now : Z) (parsed : option JSON)
| IReadyState (socket : nat) (state : ReadyState)
| IClose (socket : nat)
| IPull
| IPush (parsed : option JSON)
| IEvent (freshId : string) (now : Z) (parsed : option JSON)
| ITimeout (handle : nat)
| ISend (id : string) (method : string) (params : JSON)
| IGetEvents (params : JSON)
| IClearEvents (params : JSON)
| IJoinChannel (channel : string)
| ILeaveChannel (channel : string) (clear : bool).

Section Reactive.

Variable REQUEST_TIMEOUT_MS : Z.
Variable MAX_EVENTS : Z.

Definition step (st : Relay) (i : Input) : Relay :=
  match i with
  | IConnect => onConnection st
  | IMessage _ freshId now parsed => onMessage MAX_EVENTS freshId now parsed st
  | IReadyState socket state => set_sockets (<[socket := state]> (sockets st)) st
  | IClose socket => socketClosed socket st
  | IPull => snd (httpPull st)
  | IPush parsed => snd (httpPush parsed st)
  | IEvent freshId now parsed => snd (httpEvent MAX_EVENTS freshId now parsed st)
  | ITimeout handle => onTimeout REQUEST_TIMEOUT_MS handle st
  | ISend id method params => fst (sendToPlugin id method params st)
  | IGetEvents params => snd (getEvents params st)
  | IClearEvents params => snd (clearEvents params st)
  | IJoinChannel channel => snd (joinChannel channel st)
  | ILeaveChannel channel clear => snd (leaveChannel channel clear st)
  end.

Definition run (st : Relay) (inputs : list Input) : Relay :=
  fold_left step inputs st.

End Reactive.

(** ** Observations on the settlement log *)

(** Number of calls made to the settling functions of promise [p]. *)
Definition settle_count (p : nat) (log : list (nat * Settlement)) : nat :=
  length (List.filter (fun e => Nat.eqb (fst e) p) log).

(** The settlements of promise [p], oldest first. *)
Definition settlements_of (p : nat) (log : list (nat * Settlement)) : list Settlement :=
  map snd (List.filter (fun e => Nat.eqb (fst e) p) log).

(** The three outcomes a caller of [sendToPlugin] can observe. *)
Inductive Outcome : Type := Success | Failure | Timeout.

Definition outcome (s : Settlement) : Outcome :=
  match s with
  | Resolved _ => Success
  | Rejected (TimeoutAfter _) => Timeout
  | Rejected _ => Failure
  end.

Definition timer_armed (handle : nat) (st : Relay) : bool :=
  match timer_task handle (timers st) with Some _ => true | None => false end.


(** ** File export *)

From Stdlib Require Import Ascii.

(** [s.split(",")] *)
Fixpoint split_comma (s : string) : list string :=
  match s with
  | EmptyString => [EmptyString]
  | String c rest =>
      if Ascii.eqb c ","%char then EmptyString :: split_comma rest
      else match split_comma rest with
           | part :: parts => String c part :: parts
           | [] => [String c EmptyString]
           end
  end.

(** Result of [exportImageToFile]:
    [{ outputPath, bytes, format, mime }]. *)
Record ExportResult : Type := mkExportResult {
  ex_outputPath : string;
  ex_bytes : nat;
  ex_format : option JSON;
  ex_mime : option JSON
}.

(** The keys [exportImageToFile] does not forward. *)
Definition path_keys : list string := ["outputPath"; "dir"; "filename"].

(** The loop over [Object.entries(params)] that builds [exportParams];
    [params] is an object whenever the loop is reached. *)
Definition exportParamsOf (params : JSON) : JSON :=
  match params with
  | JObj fields =>
      JObj (List.filter (fun kv => negb (existsb (String.eqb (fst kv)) path_keys)) fields)
  | _ => JObj []
  end.

Section FileExport.

(** The file system, with [fs.mkdir(dir, { recursive: true })] and
    [fs.writeFile(path, buffer)]; [inl] is the message of the error a call
    rejects with. *)
Variable FS : Type.
Variable fs_mkdir : string -> FS -> string + FS.
Variable fs_writeFile : string -> list Byte.byte -> FS -> string + FS.

(** [path.join], [path.dirname] and [Buffer.from(text, "base64")]. *)
Variable path_join : string -> string -> string.
Variable path_dirname : string -> string.
Variable base64_decode : string -> list Byte.byte.

(** [await sendToPlugin(method, params)], as in the dispatcher. *)
Variable awaitPlugin : string -> JSON -> Relay -> Relay * (string + option JSON).

(** The [outputPath] the function computes first, [None] being [null]. *)
Definition resolveOutputPath (params : JSON) : option string :=
  match as_string (prop "outputPath" params) with
  | Some p => Some p
  | None =>
      match as_string (prop "dir" params), as_string (prop "filename" params) with
      | Some dir, Some filename => Some (path_join dir filename)
      | _, _ => None
      end
  end.

(** [await exportImageToFile(params)] on the relay and the file system;
    [inl] is the message of a thrown error. *)
Definition exportImageToFile (params : JSON) (w : Relay * FS)
  : (Relay * FS) * (string + ExportResult) :=
  match resolveOutputPath params with
  | None => (w, inl "outputPath or dir+filename is required")
  | Some outputPath =>
      if String.eqb outputPath "" then (w, inl "outputPath or dir+filename is required")
      else
        let exportParams := exportParamsOf params in
        match awaitPlugin "export_node_as_image" exportParams (fst w) with
        | (st, inl message) => ((st, snd w), inl message)
        | (st, inr result) =>
            match (if otruthy result then as_string (oprop "dataUrl" result) else None) with
            | None => ((st, snd w), inl "export_node_as_image did not return dataUrl")
            | Some dataUrl =>
                let parts := split_comma dataUrl in
                if (length parts <? 2)%nat then ((st, snd w), inl "Invalid dataUrl")
                else
                  let buffer := base64_decode (nth 1 parts EmptyString) in
                  match fs_mkdir (path_dirname outputPath) (snd w) with
                  | inl message => ((st, snd w), inl message)
                  | inr fs1 =>
                      match fs_writeFile outputPath buffer fs1 with
                      | inl message => ((st, fs1), inl message)
                      | inr fs2 =>
                          ((st, fs2),
                           inr {| ex_outputPath := outputPath;
                                  ex_bytes := length buffer;
                                  ex_format := oprop "format" result;
                                  ex_mime := oprop "mime" result |})
                      end
                  end
            end
        end
  end.

End FileExport.

(** ** The tool-call handler of the protocol server *)

(** What [toTextResult] is given. *)
Inductive CallValue : Type :=
| VTool (r : ToolResult)
| VBatch (r : BatchResult).

(** The envelope a tool call is answered with:
    [{ content: [{ type: "text", text: JSON.stringify(value, null, 2) }] }],
    represented by [value], or
    [{ isError: true, content: [{ type: "text", text }] }]. *)
Inductive CallToolResult : Type :=
| TextResult (value : CallValue)
| ErrorResult (text : string).

Definition toTextResult (value : CallValue) : CallToolResult := TextResult value.

Section CallTool.

Variable stringify : option JSON -> option string.
Variable trimmed_nonempty : string -> bool.
Variable awaitPlugin : string -> JSON -> Relay -> Relay * (string + option JSON).
Variable exportImageToFile : JSON -> Relay -> Relay * (string + option JSON).

(** The handler registered for [CallToolRequestSchema]; [name] and
    [arguments] are [request.params.name] and [request.params.arguments]. *)
Definition callTool (name : string) (arguments : option JSON) (st : Relay)
  : Relay * CallToolResult :=
  let args := or_else arguments (JObj []) in
  if String.eqb name "get_events" then
    let '(r, st) := getEvents args st in (st, toTextResult (VTool (REvents r)))
  else if String.eqb name "diff_snapshots" then
    (st, toTextResult (VTool (RDiff (diffSnapshots stringify args))))
  else if String.eqb name "export_image_to_file" then
    match exportImageToFile args st with
    | (st, inr v) => (st, toTextResult (VTool (RForwarded v)))
    | (st, inl message) => (st, ErrorResult message)
    end
  else if String.eqb name "batch_calls" then
    match runBatchCalls stringify trimmed_nonempty awaitPlugin exportImageToFile args st with
    | (st, inr r) => (st, toTextResult (VBatch r))
    | (st, inl message) => (st, ErrorResult message)
    end
  else if String.eqb name "clear_events" then
    let '(r, st) := clearEvents args st in (st, toTextResult (VTool (RCleared r)))
  else if String.eqb name "join_channel" then
    match as_string (prop "channel" args) with
    | Some c =>
        if trimmed_nonempty c
        then let '(r, st) := joinChannel c st in (st, toTextResult (VTool (RJoined r)))
        else (st, ErrorResult "channel must be a non-empty string")
    | None => (st, ErrorResult "channel must be a non-empty string")
    end
  else if String.eqb name "leave_channel" then
    match as_string (prop "channel" args) with
    | Some c =>
        if trimmed_nonempty c
        then
          let clear := is_true (prop "clear" args) in
          let '(r, st) := leaveChannel c clear st in
          (st, toTextResult (VTool (RLeft (fst r) (snd r))))
        else (st, ErrorResult "channel must be a non-empty string")
    | None => (st, ErrorResult "channel must be a non-empty string")
    end
  else if String.eqb name "list_channels" then
    (st, toTextResult (VTool (RChannels (listChannels st))))
  else
    match awaitPlugin name args st with
    | (st, inr v) => (st, toTextResult (VTool (RForwarded v)))
    | (st, inl message) => (st, ErrorResult message)
    end.

End CallTool.

(** ** Host plugin: annotation arguments *)

(** * Properties *)

(** ** Event buffer: eviction *)

Lemma last_n_length {A : Type} (n : nat) (l : list A) :
  length (last_n n l) = Nat.min n (length l).
Proof. unfold last_n. rewrite length_drop. lia. Qed.

Lemma last_n_all {A : Type} (n : nat) (l : list A) :
  (length l <= n)%nat -> last_n n l = l.
Proof.
  intros H. unfold last_n.
  replace (length l - n)%nat with 0%nat by lia. reflexivity.
Qed.

Lemma last_n_app_absorb {A : Type} (n : nat) (l m : list A) :
  last_n n (last_n n l ++ m) = last_n n (l ++ m).
Proof.
  unfold last_n. rewrite !length_app, !length_drop.
  destruct (decide (length l <= n)%nat) as [Hle | Hgt].
  - replace (length l - n)%nat with 0%nat by lia. simpl.
    f_equal. lia.
  - destruct (decide (length m <= n)%nat) as [Hm | Hm].
    + rewrite drop_app_le by (rewrite length_drop; lia).
      rewrite drop_app_le by lia.
      f_equal. rewrite drop_drop. f_equal. lia.
    + rewrite drop_app_ge by (rewrite length_drop; lia).
      rewrite drop_app_ge by lia.
      rewrite length_drop. f_equal. lia.
Qed.

Lemma pushEvent_last_n (C : Z) (e : Event) (buf : list Event) :
  0 <= C -> pushEvent C e buf = last_n (Z.to_nat C) (buf ++ [e]).
Proof.
  intros HC. unfold pushEvent, splice_front, last_n.
  destruct (Z.gtb_spec (Z.of_nat (length (buf ++ [e]))) C) as [Hgt | Hle].
  - f_equal. lia.
  - replace (length (buf ++ [e]) - Z.to_nat C)%nat with 0%nat by lia.
    reflexivity.
Qed.

Lemma pushEvents_last_n (C : Z) (es buf : list Event) :
  0 <= C -> (length buf <= Z.to_nat C)%nat ->
  pushEvents C es buf = last_n (Z.to_nat C) (buf ++ es).
Proof.
  intros HC. revert buf.
  induction es as [| e es IH]; intros buf Hlen.
  - simpl. rewrite app_nil_r. symmetry. by apply last_n_all.
  - change (pushEvents C (e :: es) buf)
      with (pushEvents C es (pushEvent C e buf)).
    rewrite IH.
    + rewrite pushEvent_last_n by done.
      rewrite last_n_app_absorb. by rewrite <- app_assoc.
    + rewrite pushEvent_last_n by done. rewrite last_n_length. lia.
Qed.

(** C5. Starting from the empty buffer, after any sequence [es] of appends
    (hence after each append of a longer sequence) the buffer holds the
    [min C (length es)] most recently appended events in their append
    order; its size never exceeds the capacity [C], and it is exactly [C]
    as soon as more than [C] events have been appended. *)
Theorem eventBuffer_keeps_most_recent (C : Z) (es : list Event) :
  0 <= C ->
  pushEvents C es [] = last_n (Z.to_nat C) es
  /\ (length (pushEvents C es []) <= Z.to_nat C)%nat
  /\ ((Z.to_nat C < length es)%nat ->
      length (pushEvents C es []) = Z.to_nat C
      /\ pushEvents C es [] = drop (length es - Z.to_nat C) es).
Proof.
  intros HC.
  assert (H : pushEvents C es [] = last_n (Z.to_nat C) es).
  { rewrite pushEvents_last_n by (simpl; lia). reflexivity. }
  rewrite H. split; [reflexivity |]. rewrite last_n_length.
  split; [lia |]. intros Hlt. split; [lia | reflexivity].
Qed.

Definition sample_event (n : Z) (channel : string) : Event :=
  mkEvent "e" "selectionchange" None n channel.

Lemma eventBuffer_keeps_most_recent_witness :
  pushEvents 2 [sample_event 1 "a"; sample_event 2 "b"; sample_event 3 "a"] []
  = [sample_event 2 "b"; sample_event 3 "a"].
Proof.
  pose proof (eventBuffer_keeps_most_recent 2
    [sample_event 1 "a"; sample_event 2 "b"; sample_event 3 "a"]) as H.
  destruct H as [H _]; [lia |]. exact H.
Defined.

(** ** Event queries *)

(** C3. [getEvents] called with [clear === true] leaves the event buffer
    empty whatever [channel], [since] or [limit] it was given; the result
    was computed on the buffer as it was ([total] is its former size). *)
Theorem getEvents_clear_wipes_all (params : JSON) (st : Relay) :
  is_true (prop "clear" params) = true ->
  eventBuffer (snd (getEvents params st)) = []
  /\ length (eventBuffer (snd (getEvents params st))) = 0%nat
  /\ er_total (fst (getEvents params st)) = length (eventBuffer st).
Proof.
  intros Hclear. unfold getEvents. rewrite Hclear. simpl. auto.
Qed.

Definition two_channel_relay : Relay :=
  set_eventBuffer [sample_event 1 "a"; sample_event 2 "b"] initial.

Lemma getEvents_clear_wipes_all_witness :
  eventBuffer (snd (getEvents (JObj [("channel", JStr "a"); ("clear", JBool true)])
                      two_channel_relay)) = []
  /\ map ev_channel
       (er_events (fst (getEvents (JObj [("channel", JStr "a"); ("clear", JBool true)])
                          two_channel_relay))) = ["a"].
Proof.
  split.
  - apply (getEvents_clear_wipes_all
             (JObj [("channel", JStr "a"); ("clear", JBool true)]) two_channel_relay).
    reflexivity.
  - reflexivity.
Defined.

(** ** Channel registry *)

Lemma Set_has_In (x : string) (s : list string) :
  Set_has x s = true <-> In x s.
Proof.
  unfold Set_has. rewrite existsb_exists. split.
  - intros (y & Hy & Heq). apply String.eqb_eq in Heq. by subst.
  - intros H. exists x. split; [done | apply String.eqb_refl].
Qed.

Lemma Set_add_In (x : string) (s : list string) : In x (Set_add x s).
Proof.
  unfold Set_add. destruct (Set_has x s) eqn:E.
  - by apply Set_has_In.
  - apply in_or_app. right. by left.
Qed.

Lemma Set_add_idem (x : string) (s : list string) :
  Set_add x (Set_add x s) = Set_add x s.
Proof.
  unfold Set_add at 1.
  pose proof (Set_add_In x s) as H. apply Set_has_In in H. by rewrite H.
Qed.

(** C7. [joinChannel label] puts [label] in the known set and makes it
    active, which [listChannels] then reports; joining again changes
    nothing; [leaveChannel] on the active label resets the active channel to
    ["default"]; [leaveChannel "default"] leaves the known set as it is,
    with or without [clear]. *)
Theorem channel_registry_join_leave (label : string) (clear : bool) (st : Relay) :
  let st1 := snd (joinChannel label st) in
  In label (lc_channels (listChannels st1))
  /\ lc_activeChannel (listChannels st1) = label
  /\ fst (joinChannel label st) = label
  /\ channels (snd (joinChannel label st1)) = channels st1
  /\ activeChannel (snd (leaveChannel (activeChannel st) clear st)) = "default"
  /\ fst (fst (leaveChannel (activeChannel st) clear st)) = "default"
  /\ channels (snd (leaveChannel "default" clear st)) = channels st.
Proof.
  simpl. repeat split.
  - apply Set_add_In.
  - apply Set_add_idem.
  - unfold leaveChannel.
    destruct (negb (String.eqb (activeChannel st) "default")), clear; simpl;
      rewrite ?String.eqb_refl; try reflexivity.
    all: unfold clearEvents; simpl;
      destruct (negb (negb (String.eqb (activeChannel st) ""))); simpl;
      by rewrite String.eqb_refl.
  - unfold leaveChannel.
    destruct (negb (String.eqb (activeChannel st) "default")), clear; simpl;
      rewrite ?String.eqb_refl; try reflexivity.
    all: unfold clearEvents; simpl;
      destruct (negb (negb (String.eqb (activeChannel st) ""))); simpl;
      by rewrite String.eqb_refl.
  - unfold leaveChannel. simpl. destruct clear; simpl.
    + destruct (String.eqb (activeChannel st) "default"); reflexivity.
    + destruct (String.eqb (activeChannel st) "default"); reflexivity.
Qed.

(** ** Tagging of inbound events *)

Definition tagged_event_message : JSON :=
  JObj [("type", JStr "event"); ("event", JStr "selectionchange");
        ("payload", JNull); ("timestamp", JNum 1700000000000);
        ("channel", JStr "design-sync")].

(** The reading of C4 that the code contradicts: an event message that
    carries its own [channel] string would be stored under that channel.
    It fails on [tagged_event_message], received on the first socket of a
    freshly started relay (active channel ["default"]): the stored entry is
    tagged ["default"], not ["design-sync"]. *)
Lemma event_own_channel_not_used :
  ~ (forall (freshId : string) (now : Z) (message : JSON) (name c : string) (st : Relay),
        as_string (prop "event" message) = Some name ->
        as_string (prop "channel" message) = Some c ->
        exists e,
          last (eventBuffer (onMessage 200 freshId now (Some message) st)) = Some e
          /\ ev_channel e = c).
Proof.
  intros H.
  destruct (H "1700000000000-abc" 1700000000001 tagged_event_message
              "selectionchange" "design-sync" (onConnection initial)
              eq_refl eq_refl) as (e & He & Hc).
  vm_compute in He. inversion He; subst e. discriminate Hc.
Qed.

Lemma pushEvent_last (C : Z) (e : Event) (buf : list Event) :
  1 <= C -> last (pushEvent C e buf) = Some e.
Proof.
  intros HC. rewrite pushEvent_last_n by lia. unfold last_n.
  rewrite length_app. simpl.
  rewrite drop_app_le by lia.
  rewrite last_app. simpl. reflexivity.
Qed.

(** C4 as the code has it. For an inbound message with an event-name
    string, on the socket path (type ["event"]) and on the [POST /event]
    path alike, the appended entry is tagged with the relay's active
    channel; a [channel] field of the message is not consulted.  (The
    handler's second argument, when a non-empty string, is the tag; both
    callers pass the active channel.) *)
Theorem event_tagged_with_active_channel
    (MAX_EVENTS : Z) (freshId : string) (now : Z) (message : JSON)
    (name : string) (st : Relay) :
  1 <= MAX_EVENTS ->
  as_string (prop "event" message) = Some name ->
  (exists e,
      last (eventBuffer (snd (httpEvent MAX_EVENTS freshId now (Some message) st))) = Some e
      /\ ev_event e = name /\ ev_channel e = activeChannel st)
  /\ (as_string (prop "type" message) = Some "event" ->
      exists e,
        last (eventBuffer (onMessage MAX_EVENTS freshId now (Some message) st)) = Some e
        /\ ev_event e = name /\ ev_channel e = activeChannel st)
  /\ (forall override : string,
        override <> "" ->
        exists e,
          last (eventBuffer
                  (handleEventMessage MAX_EVENTS freshId now message (Some override) st))
            = Some e
          /\ ev_channel e = override).
Proof.
  intros HC Hname.
  assert (Htruthy : truthy message = true).
  { destruct message; simpl in Hname; try discriminate. reflexivity. }
  assert (Hor : override_or (Some (activeChannel st)) (activeChannel st) = activeChannel st).
  { unfold override_or. by destruct (String.eqb (activeChannel st) ""). }
  split; [| split].
  - simpl. unfold handleEventMessage. rewrite Htruthy, Hname. simpl.
    eexists. split; [by apply pushEvent_last |]. split; [reflexivity | exact Hor].
  - intros Htype. unfold onMessage. rewrite Htruthy, Htype. simpl.
    unfold handleEventMessage. rewrite Htruthy, Hname. simpl.
    eexists. split; [by apply pushEvent_last |]. split; [reflexivity | exact Hor].
  - intros override Hne. unfold handleEventMessage. rewrite Htruthy, Hname. simpl.
    eexists. split; [by apply pushEvent_last |].
    apply String.eqb_neq in Hne. cbn [ev_channel override_or]. by rewrite Hne.
Qed.

Lemma event_tagged_with_active_channel_witness :
  exists e,
    last (eventBuffer (onMessage 200 "1700000000000-abc" 1700000000001
                         (Some tagged_event_message) (onConnection initial))) = Some e
    /\ ev_event e = "selectionchange" /\ ev_channel e = "default".
Proof.
  refine (proj1 (proj2 (event_tagged_with_active_channel 200 "1700000000000-abc"
            1700000000001 tagged_event_message "selectionchange"
            (onConnection initial) _ _)) _).
  - lia.
  - reflexivity.
  - reflexivity.
Defined.

(** ** Insertion-ordered maps *)

Lemma assoc_In {V : Type} (k : string) (v : V) (m : list (string * V)) :
  assoc k m = Some v -> In (k, v) m.
Proof.
  induction m as [| [k' v'] m IH]; simpl; [discriminate |].
  destruct (String.eqb k k') eqn:E.
  - apply String.eqb_eq in E. subst k'. intros [= ->]. by left.
  - intros H. right. by apply IH.
Qed.

Lemma assoc_NoDup {V : Type} (k : string) (v : V) (m : list (string * V)) :
  List.NoDup (map fst m) -> In (k, v) m -> assoc k m = Some v.
Proof.
  induction m as [| [k' v'] m IH]; simpl; [intros _ [] |].
  intros Hnd [Heq | Hin].
  - injection Heq as -> ->. by rewrite String.eqb_refl.
  - apply List.NoDup_cons_iff in Hnd as [Hnotin Hnd].
    destruct (String.eqb k k') eqn:E.
    + apply String.eqb_eq in E. subst k'. exfalso. apply Hnotin.
      change k with (fst (k, v)). by apply in_map.
    + by apply IH.
Qed.

Lemma Map_has_In {V : Type} (k : string) (v : V) (m : list (string * V)) :
  In (k, v) m -> Map_has k m = true.
Proof.
  unfold Map_has.
  induction m as [| [k' v'] m IH]; simpl; [intros [] |].
  intros [Heq | Hin].
  - injection Heq as -> ->. by rewrite String.eqb_refl.
  - destruct (String.eqb k k'); [done | by apply IH].
Qed.

Lemma Map_has_keys {V : Type} (k : string) (m : list (string * V)) :
  Map_has k m = true <-> In k (map fst m).
Proof.
  unfold Map_has. split.
  - destruct (assoc k m) as [v |] eqn:E; [| discriminate].
    intros _. apply assoc_In in E. change k with (fst (k, v)). by apply in_map.
  - intros Hin. apply in_map_iff in Hin as ([k' v] & Hk & Hin). simpl in Hk. subst k'.
    by apply (Map_has_In k v).
Qed.

Lemma Map_set_In_new {V : Type} (k : string) (v : V) (m : list (string * V)) :
  In (k, v) (Map_set k v m).
Proof.
  induction m as [| [k0 v0] m IH]; simpl; [by left |].
  destruct (String.eqb k k0); [by left | by right].
Qed.

Lemma Map_set_In {V : Type} (k : string) (v : V) (m : list (string * V)) (kv : string * V) :
  In kv (Map_set k v m) -> kv = (k, v) \/ In kv m.
Proof.
  induction m as [| [k0 v0] m IH]; simpl.
  - intros [H | []]. left. by symmetry.
  - destruct (String.eqb k k0).
    + intros [H | H]; [left; by symmetry | right; by right].
    + intros [H | H]; [right; by left |].
      destruct (IH H) as [Heq | Hin]; [by left | right; by right].
Qed.

Lemma Map_set_keys {V : Type} (k : string) (v : V) (m : list (string * V)) :
  map fst (Map_set k v m) = if Map_has k m then map fst m else map fst m ++ [k].
Proof.
  unfold Map_has.
  induction m as [| [k0 v0] m IH]; simpl; [reflexivity |].
  destruct (String.eqb k k0) eqn:E.
  - apply String.eqb_eq in E. by subst k0.
  - simpl. rewrite IH. by destruct (assoc k m).
Qed.

Lemma Map_set_NoDup {V : Type} (k : string) (v : V) (m : list (string * V)) :
  List.NoDup (map fst m) -> List.NoDup (map fst (Map_set k v m)).
Proof.
  intros Hnd. rewrite Map_set_keys.
  destruct (Map_has k m) eqn:E; [done |].
  apply List.NoDup_app; [done | |].
  - constructor; [intros [] | constructor].
  - intros x Hx [<- | []].
    apply Map_has_keys in Hx. congruence.
Qed.

Lemma Map_delete_In {V : Type} (k : string) (m : list (string * V)) (kv : string * V) :
  In kv (Map_delete k m) <-> fst kv <> k /\ In kv m.
Proof.
  unfold Map_delete. rewrite filter_In. rewrite negb_true_iff, String.eqb_neq.
  split; intros [H1 H2]; split; auto.
Qed.

Lemma Map_delete_NoDup {V : Type} (k : string) (m : list (string * V)) :
  List.NoDup (map fst m) -> List.NoDup (map fst (Map_delete k m)).
Proof.
  unfold Map_delete.
  induction m as [| [k0 v0] m IH]; simpl; [done |].
  intros Hnd. apply List.NoDup_cons_iff in Hnd as [Hnotin Hnd].
  destruct (negb (String.eqb k k0)); simpl; [| by apply IH].
  constructor; [| by apply IH].
  intros Hin. apply Hnotin.
  apply in_map_iff in Hin as (kv & Hk & Hin).
  apply filter_In in Hin as [Hin _].
  rewrite <- Hk. by apply in_map.
Qed.

(** ** Snapshot diff *)

Lemma fold_left_fixed {A B : Type} (f : A -> B -> A) (l : list B) (a : A) :
  (forall x, In x l -> f a x = a) -> fold_left f l a = a.
Proof.
  induction l as [| x l IH]; simpl; [done |].
  intros H. rewrite (H x) by (by left). apply IH.
  intros y Hy. apply H. by right.
Qed.

Lemma filter_nothing {A : Type} (f : A -> bool) (l : list A) :
  (forall x, In x l -> f x = false) -> List.filter f l = [].
Proof.
  induction l as [| x l IH]; simpl; [done |].
  intros H. rewrite (H x) by (by left). apply IH.
  intros y Hy. apply H. by right.
Qed.

Lemma text_differs_same (a : option string) : text_differs a a = false.
Proof. destruct a; simpl; [by rewrite String.eqb_refl | done]. Qed.

Lemma indexNodes_NoDup (nodes : list JSON) :
  List.NoDup (map fst (indexNodes nodes)).
Proof.
  unfold indexNodes.
  assert (H : forall (m : list (string * JSON)),
             List.NoDup (map fst m) ->
             List.NoDup (map fst
               (fold_left
                  (fun m node =>
                     if truthy node
                     then match as_string (prop "id" node) with
                          | Some id => Map_set id node m
                          | None => m
                          end
                     else m) nodes m))).
  { induction nodes as [| node nodes IH]; simpl; [done |].
    intros m Hm. apply IH.
    destruct (truthy node); [| done].
    destruct (as_string (prop "id" node)); [| done].
    by apply Map_set_NoDup. }
  apply H. constructor.
Qed.

Lemma changedFields_same (stringify : option JSON -> option string)
    (ignoreFields : list string) (node : JSON) :
  changedFields stringify ignoreFields node node = [].
Proof.
  unfold changedFields. apply fold_left_fixed.
  intros key _.
  destruct (existsb (String.eqb key) ignoreFields); [done |].
  by rewrite text_differs_same.
Qed.

(** The two sides of a diff being the same value, nothing is reported,
    whatever the ignore list. *)
Lemma diffSnapshots_equal_sides (stringify : option JSON -> option string) (params : JSON) :
  prop "before" params = prop "after" params ->
  diffSnapshots stringify params = mkDiffResult 0 0 0 [] [] [].
Proof.
  intros Hsame. unfold diffSnapshots. rewrite <- Hsame.
  set (m := indexNodes (normalizeSnapshotInput (prop "before" params))).
  assert (Hnd : List.NoDup (map fst m)) by apply indexNodes_NoDup.
  assert (Hfilter : List.filter (fun kv : string * JSON => negb (Map_has (fst kv) m)) m = []).
  { apply filter_nothing. intros [k v] Hin. simpl.
    by rewrite (Map_has_In k v m Hin). }
  rewrite Hfilter. simpl.
  rewrite fold_left_fixed; [reflexivity |].
  intros [k v] Hin. simpl. unfold Map_get.
  rewrite (assoc_NoDup k v m Hnd Hin).
  destruct (truthy v); simpl; [| done].
  by rewrite changedFields_same.
Qed.

(** C8. For every snapshot value [S] (an array of node projections, a
    wrapper object with a [nodes] array, or anything else), the diff of [S]
    against itself with [ignoreFields = []] has all three counts 0 and all
    three sequences empty. *)
Theorem diff_same_snapshot_is_empty (stringify : option JSON -> option string) (S : JSON) :
  let r := diffSnapshots stringify
             (JObj [("before", S); ("after", S); ("ignoreFields", JArr [])]) in
  addedCount r = 0%nat /\ removedCount r = 0%nat /\ changedCount r = 0%nat
  /\ added r = [] /\ removed r = [] /\ changed r = [].
Proof.
  intros r. subst r. rewrite diffSnapshots_equal_sides by reflexivity.
  simpl. repeat split.
Qed.

(** ** Correlation table: timers, settlements, the close handler *)

Lemma timer_task_clear (h h' : nat) (ts : list (nat * TimerTask)) :
  timer_task h (List.filter (fun t => negb (Nat.eqb h' (fst t))) ts)
  = if Nat.eqb h h' then None else timer_task h ts.
Proof.
  induction ts as [| [h0 task] ts IH]; simpl.
  - by destruct (Nat.eqb h h').
  - destruct (Nat.eqb h' h0) eqn:E0; simpl.
    + apply Nat.eqb_eq in E0. subst h0. rewrite IH.
      by destruct (Nat.eqb h h').
    + rewrite IH. destruct (Nat.eqb h h0) eqn:E1; [| done].
      apply Nat.eqb_eq in E1. subst h0.
      rewrite Nat.eqb_sym in E0. by rewrite E0.
Qed.

Lemma timer_task_app (h h' : nat) (task : TimerTask) (ts : list (nat * TimerTask)) :
  timer_task h (ts ++ [(h', task)])
  = match timer_task h ts with
    | Some t => Some t
    | None => if Nat.eqb h h' then Some task else None
    end.
Proof.
  induction ts as [| [h0 t0] ts IH]; simpl; [done |].
  by destruct (Nat.eqb h h0).
Qed.

Lemma settle_count_app (p q : nat) (s : Settlement) (log : list (nat * Settlement)) :
  settle_count p (log ++ [(q, s)])
  = (settle_count p log + if Nat.eqb q p then 1 else 0)%nat.
Proof.
  unfold settle_count. rewrite List.filter_app, length_app. simpl.
  by destruct (Nat.eqb q p).
Qed.

Lemma settlements_of_length (p : nat) (log : list (nat * Settlement)) :
  length (settlements_of p log) = settle_count p log.
Proof. unfold settlements_of, settle_count. by rewrite length_map. Qed.

(** The entry [(id, e)] leaves the table: its timer is cleared, its key
    deleted, its promise settled with [s].  Both [handleResponseMessage]
    and the close handler do exactly this. *)
Definition discharge (id : string) (e : PendingEntry) (s : Settlement) (st : Relay) : Relay :=
  settle (pe_promise e) s
    (set_pending (Map_delete id (pending st)) (clearTimeout (pe_timer e) st)).

Lemma failEntry_discharge (st : Relay) (kv : string * PendingEntry) :
  failEntry st kv = discharge (fst kv) (snd kv) (Rejected PluginDisconnected) st.
Proof. reflexivity. Qed.

Lemma handleResponseMessage_cases (message : JSON) (st : Relay) :
  handleResponseMessage message st = st
  \/ exists id e s,
       as_string (prop "id" message) = Some id
       /\ In (id, e) (pending st)
       /\ s = (if otruthy (prop "error" message)
               then Rejected (PluginError
                      (or_else (oprop "message" (prop "error" message))
                               (JStr "Plugin error")))
               else Resolved (prop "result" message))
       /\ handleResponseMessage message st = discharge id e s st.
Proof.
  unfold handleResponseMessage.
  destruct (negb (truthy message)); [by left |].
  destruct (as_string (prop "id" message)) as [id |]; [| by left].
  destruct (Map_get id (pending st)) as [e |] eqn:E; [| by left].
  right. exists id, e. eexists. split; [done |].
  split; [by apply assoc_In |]. split; [reflexivity |].
  by destruct (otruthy (prop "error" message)).
Qed.

Definition delete_keys {V : Type} (l m : list (string * V)) : list (string * V) :=
  fold_left (fun m kv => Map_delete (fst kv) m) l m.

Lemma delete_keys_all {V : Type} (l m : list (string * V)) :
  (forall kv, In kv m -> In (fst kv) (map fst l)) -> delete_keys l m = [].
Proof.
  revert m. induction l as [| a l IH]; intros m H; simpl.
  - destruct m as [| kv m]; [done |]. destruct (H kv). by left.
  - apply IH. intros kv Hin. apply Map_delete_In in Hin as [Hne Hin].
    destruct (H kv Hin) as [Heq | Htl]; [congruence | done].
Qed.

(** What the loop of the close handler does to each field. *)
Lemma fold_failEntry_fields (l : list (string * PendingEntry)) (st : Relay) :
  let st' := fold_left failEntry l st in
  pending st' = delete_keys l (pending st)
  /\ settled st'
     = settled st ++ map (fun kv => (pe_promise (snd kv), Rejected PluginDisconnected)) l
  /\ activeSocket st' = activeSocket st
  /\ requestQueue st' = requestQueue st
  /\ eventBuffer st' = eventBuffer st
  /\ sockets st' = sockets st
  /\ wire st' = wire st
  /\ nextHandle st' = nextHandle st
  /\ (forall h, timer_task h (timers st) = None -> timer_task h (timers st') = None)
  /\ (forall kv, In kv l -> timer_task (pe_timer (snd kv)) (timers st') = None).
Proof.
  revert st. induction l as [| kv l IH]; intros st; simpl.
  - rewrite app_nil_r. repeat split; auto. intros kv [].
  - destruct (IH (failEntry st kv)) as (Hp & Hs & Ha & Hq & He & Hk & Hw & Hn & Ht & Hc).
    assert (Hclear : forall h, timer_task h (timers st) = None ->
                               timer_task h (timers (failEntry st kv)) = None).
    { intros h Hh. simpl. rewrite timer_task_clear, Hh. by destruct (Nat.eqb h _). }
    repeat split; try assumption.
    + rewrite Hs. simpl. by rewrite <- app_assoc.
    + intros h Hh. apply Ht. by apply Hclear.
    + intros kv' [<- | Hin]; [| by apply Hc].
      apply Ht. simpl. rewrite timer_task_clear. by rewrite Nat.eqb_refl.
Qed.

Lemma socketClosed_fields (socket : nat) (st : Relay) :
  let st' := socketClosed socket st in
  pending st' = []
  /\ settled st'
     = settled st
       ++ map (fun kv => (pe_promise (snd kv), Rejected PluginDisconnected)) (pending st)
  /\ activeSocket st'
     = (if decide (activeSocket st = Some socket) then None else activeSocket st)
  /\ requestQueue st' = requestQueue st
  /\ sockets st' = <[socket := CLOSED]> (sockets st)
  /\ Forall (fun kv => timer_armed (pe_timer (snd kv)) st' = false) (pending st).
Proof.
  unfold socketClosed, onClose.
  set (st0 := set_sockets _ st).
  set (st1 := match activeSocket st0 with
              | Some s => if Nat.eqb s socket then set_activeSocket None st0 else st0
              | None => st0
              end).
  assert (H1 : pending st1 = pending st /\ settled st1 = settled st
               /\ requestQueue st1 = requestQueue st
               /\ sockets st1 = <[socket := CLOSED]> (sockets st)
               /\ activeSocket st1
                  = (if decide (activeSocket st = Some socket) then None else activeSocket st)).
  { subst st1 st0. cbn [activeSocket set_sockets].
    destruct (activeSocket st) as [s |] eqn:E.
    - destruct (Nat.eqb s socket) eqn:E'.
      + apply Nat.eqb_eq in E'. subst s. case_decide; [| done].
        repeat split.
      + apply Nat.eqb_neq in E'. case_decide; [congruence |].
        repeat split. done.
    - case_decide; [done |]. repeat split. done. }
  destruct H1 as (Hp1 & Hs1 & Hq1 & Hk1 & Ha1).
  destruct (fold_failEntry_fields (pending st1) st1)
    as (Hp & Hs & Ha & Hq & _ & Hk & _ & _ & _ & Hc).
  simpl. repeat split.
  - rewrite Hp. apply delete_keys_all. intros kv Hin. by apply in_map.
  - by rewrite Hs, Hs1, Hp1.
  - by rewrite Ha, Ha1.
  - by rewrite Hq, Hq1.
  - by rewrite Hk, Hk1.
  - rewrite Forall_forall. intros kv Hin. unfold timer_armed.
    rewrite Hc; [done |]. rewrite Hp1. by apply list_elem_of_In.
Qed.

(** C2. When the active socket closes with [N] entries in [pending], the
    close handler empties the table, clears the timer of each of the [N]
    entries and rejects each of their promises, in insertion order, with
    ["Plugin disconnected"]; the relay is left without active socket. *)
Theorem close_rejects_every_pending (socket : nat) (st : Relay) :
  activeSocket st = Some socket ->
  let st' := socketClosed socket st in
  pending st' = []
  /\ settled st'
     = settled st
       ++ map (fun kv => (pe_promise (snd kv), Rejected PluginDisconnected)) (pending st)
  /\ Forall (fun kv => timer_armed (pe_timer (snd kv)) st' = false) (pending st)
  /\ activeSocket st' = None.
Proof.
  intros Hactive st'.
  destruct (socketClosed_fields socket st) as (Hp & Hs & Ha & _ & _ & Ht).
  repeat split; try assumption.
  subst st'. rewrite Ha. by rewrite decide_True.
Qed.

(** A relay whose host is connected and which has forwarded two calls. *)
Definition two_calls_in_flight : Relay :=
  fst (sendToPlugin "1700000000001-b" "get_node_info" (JObj [("nodeId", JStr "1:2")])
         (fst (sendToPlugin "1700000000000-a" "get_selection" (JObj [])
                 (onConnection initial)))).

Lemma close_rejects_every_pending_witness :
  length (pending two_calls_in_flight) = 2%nat
  /\ pending (socketClosed 1 two_calls_in_flight) = []
  /\ settled (socketClosed 1 two_calls_in_flight)
     = [(0%nat, Rejected PluginDisconnected); (1%nat, Rejected PluginDisconnected)]
  /\ timers (socketClosed 1 two_calls_in_flight) = [].
Proof.
  destruct (close_rejects_every_pending 1 two_calls_in_flight eq_refl)
    as (Hp & Hs & _ & _).
  split; [reflexivity |]. split; [exact Hp |]. split; [exact Hs | reflexivity].
Defined.

(** C9. The close handler of any socket, active or not, fails the whole
    table: after it [pending] is empty and every entry it held has been
    rejected with ["Plugin disconnected"]; the active socket is reset only
    when it is the one that closed.  In particular, after two successive
    connections the first socket is orphaned, a call then forwarded is
    written to the second socket, and the closure of the first rejects that
    call while the second stays active and open. *)
Theorem any_close_rejects_every_pending
    (socket : nat) (id method : string) (params : JSON) (st : Relay) :
  (let st' := socketClosed socket st in
   pending st' = []
   /\ settled st'
      = settled st
        ++ map (fun kv => (pe_promise (snd kv), Rejected PluginDisconnected)) (pending st)
   /\ activeSocket st'
      = (if decide (activeSocket st = Some socket) then None else activeSocket st))
  /\ (let old := S (socketId st) in
      let new := S (S (socketId st)) in
      let st1 := onConnection (onConnection st) in
      let st2 := fst (sendToPlugin id method params st1) in
      let p := snd (sendToPlugin id method params st1) in
      let st3 := socketClosed old st2 in
      activeSocket st1 = Some new
      /\ wire st2 = wire st1 ++ [(new, FRequest (mkRequest id method params (activeChannel st)))]
      /\ In (id, mkEntry p p) (pending st2)
      /\ pending st3 = []
      /\ In (p, Rejected PluginDisconnected) (settled st3)
      /\ activeSocket st3 = Some new
      /\ sockets st3 !! new = Some OPEN).
Proof.
  split.
  - destruct (socketClosed_fields socket st) as (Hp & Hs & Ha & _).
    by repeat split.
  - intros old new st1 st2 p st3.
    assert (Htarget : forall st1', activeSocket st1' = Some new ->
                                   sockets st1' = sockets st1 ->
                                   push_target st1' = Some new).
    { intros st1' Ha Hk. unfold push_target. rewrite Ha, Hk.
      subst st1. simpl. by rewrite lookup_insert_eq. }
    assert (Hst2 : wire st2 = wire st1 ++ [(new, FRequest (mkRequest id method params (activeChannel st)))]
                   /\ pending st2 = Map_set id (mkEntry p p) (pending st1)
                   /\ activeSocket st2 = Some new
                   /\ sockets st2 = sockets st1).
    { subst st2 p. unfold sendToPlugin. rewrite Htarget by reflexivity.
      simpl. repeat split. }
    destruct Hst2 as (Hw2 & Hp2 & Ha2 & Hk2).
    destruct (socketClosed_fields old st2) as (Hp & Hs & Ha & _ & Hk & _).
    repeat split; try assumption.
    + rewrite Hp2. apply Map_set_In_new.
    + fold st3 in Hs. rewrite Hs. apply in_or_app. right.
      apply in_map_iff. exists (id, mkEntry p p). split; [reflexivity |].
      rewrite Hp2. apply Map_set_In_new.
    + fold st3 in Ha. rewrite Ha, Ha2.
      rewrite decide_False; [done |]. subst old new. intros [= H]. lia.
    + fold st3 in Hk. rewrite Hk, Hk2. subst st1. simpl.
      rewrite lookup_insert_ne by (subst old new; lia).
      by rewrite lookup_insert_eq.
Qed.

(** ** Correlation table: the invariant of the reachable states *)

(** - an armed timer carries the promise of its own number, already
      allocated;
    - an entry of [pending] owns an armed timer whose callback names the
      entry's key and promise;
    - the keys of [pending] are distinct;
    - a promise has been settled once if it is allocated and its timer is
      no longer armed, and not at all otherwise. *)
Record Inv (st : Relay) : Prop := mkInv {
  inv_timers : forall h task,
    timer_task h (timers st) = Some task ->
    tt_promise task = h /\ (h < nextHandle st)%nat;
  inv_pending : forall id e,
    In (id, e) (pending st) ->
    timer_task (pe_timer e) (timers st) = Some (mkTask id (pe_promise e));
  inv_keys : List.NoDup (map fst (pending st));
  inv_count : forall p,
    settle_count p (settled st)
    = if timer_armed p st then 0%nat
      else if (p <? nextHandle st)%nat then 1%nat else 0%nat
}.

Lemma Inv_initial : Inv initial.
Proof.
  split; simpl.
  - discriminate.
  - intros id e [].
  - constructor.
  - intros p. reflexivity.
Qed.

(** Handlers that touch neither the table nor the timers nor the promises. *)
Lemma Inv_frame (st st' : Relay) :
  timers st' = timers st -> pending st' = pending st ->
  settled st' = settled st -> nextHandle st' = nextHandle st ->
  Inv st -> Inv st'.
Proof.
  intros Ht Hp Hs Hn [I1 I2 I3 I4].
  split; unfold timer_armed in *; rewrite ?Ht, ?Hp, ?Hs, ?Hn; assumption.
Qed.

(** The timer [h], armed for key [id] and promise [p], is disarmed, [id]
    is deleted and [p] is settled. *)
Definition retire (h : nat) (id : string) (p : nat) (s : Settlement) (st : Relay) : Relay :=
  settle p s (set_pending (Map_delete id (pending st)) (clearTimeout h st)).

Lemma Inv_retire (h : nat) (id : string) (p : nat) (s : Settlement) (st : Relay) :
  timer_task h (timers st) = Some (mkTask id p) ->
  Inv st -> Inv (retire h id p s st).
Proof.
  intros Harmed [I1 I2 I3 I4].
  destruct (I1 h _ Harmed) as [Hp Hlt]. simpl in Hp. subst p.
  split; unfold retire; simpl.
  - intros h0 task. rewrite timer_task_clear.
    destruct (Nat.eqb h0 h); [discriminate | apply I1].
  - intros id' e Hin. apply Map_delete_In in Hin as [Hne Hin]. simpl in Hne.
    specialize (I2 id' e Hin). rewrite timer_task_clear.
    destruct (Nat.eqb (pe_timer e) h) eqn:E; [| done].
    apply Nat.eqb_eq in E. rewrite E in I2. congruence.
  - by apply Map_delete_NoDup.
  - intros q. rewrite settle_count_app, I4. unfold timer_armed. simpl.
    rewrite timer_task_clear. rewrite (Nat.eqb_sym h q).
    destruct (Nat.eqb q h) eqn:E.
    + apply Nat.eqb_eq in E. subst q. rewrite Harmed.
      apply Nat.ltb_lt in Hlt. by rewrite Hlt.
    + destruct (timer_task q (timers st)); [done |].
      destruct (q <? nextHandle st)%nat; lia.
Qed.

Lemma Inv_discharge (id : string) (e : PendingEntry) (s : Settlement) (st : Relay) :
  In (id, e) (pending st) -> Inv st -> Inv (discharge id e s st).
Proof.
  intros Hin HI.
  change (discharge id e s st) with (retire (pe_timer e) id (pe_promise e) s st).
  apply Inv_retire; [| done]. by apply (inv_pending st HI).
Qed.

Lemma Inv_handleResponseMessage (message : JSON) (st : Relay) :
  Inv st -> Inv (handleResponseMessage message st).
Proof.
  intros HI.
  destruct (handleResponseMessage_cases message st)
    as [-> | (id & e & s & _ & Hin & _ & ->)]; [done |].
  by apply Inv_discharge.
Qed.

Lemma Inv_handleEventMessage (C : Z) (freshId : string) (now : Z) (message : JSON)
    (override : option string) (st : Relay) :
  Inv st -> Inv (handleEventMessage C freshId now message override st).
Proof.
  intros HI. unfold handleEventMessage.
  destruct (negb (truthy message)); [done |].
  destruct (as_string (prop "event" message)); [| done].
  by apply (Inv_frame st).
Qed.

Lemma Inv_onTimeout (ms : Z) (h : nat) (st : Relay) :
  Inv st -> Inv (onTimeout ms h st).
Proof.
  intros HI. unfold onTimeout.
  destruct (timer_task h (timers st)) as [[id p] |] eqn:E; [| done].
  change (Inv (retire h id p (Rejected (TimeoutAfter ms)) st)).
  by apply Inv_retire.
Qed.

Lemma sendToPlugin_fields (id method : string) (params : JSON) (st : Relay) :
  let st' := fst (sendToPlugin id method params st) in
  snd (sendToPlugin id method params st) = nextHandle st
  /\ nextHandle st' = S (nextHandle st)
  /\ timers st' = timers st ++ [(nextHandle st, mkTask id (nextHandle st))]
  /\ pending st' = Map_set id (mkEntry (nextHandle st) (nextHandle st)) (pending st)
  /\ settled st' = settled st
  /\ (push_target st = None ->
      requestQueue st'
      = requestQueue st ++ [mkRequest id method params (activeChannel st)]).
Proof.
  unfold sendToPlugin.
  match goal with |- context [push_target ?s] =>
    replace (push_target s) with (push_target st) by reflexivity end.
  destruct (push_target st); simpl; repeat split; try discriminate.
Qed.

Lemma Inv_sendToPlugin (id method : string) (params : JSON) (st : Relay) :
  Inv st -> Inv (fst (sendToPlugin id method params st)).
Proof.
  intros [I1 I2 I3 I4].
  destruct (sendToPlugin_fields id method params st) as (_ & Hn & Ht & Hp & Hs & _).
  set (st' := fst (sendToPlugin id method params st)) in *.
  assert (Hfresh : timer_task (nextHandle st) (timers st) = None).
  { destruct (timer_task (nextHandle st) (timers st)) as [task |] eqn:E; [| done].
    destruct (I1 _ _ E). lia. }
  split; unfold timer_armed; rewrite ?Hn, ?Ht, ?Hp, ?Hs.
  - intros h task. rewrite timer_task_app.
    destruct (timer_task h (timers st)) as [t |] eqn:E.
    + intros [= <-]. destruct (I1 _ _ E). split; [done | lia].
    + destruct (Nat.eqb h (nextHandle st)) eqn:E'; [| discriminate].
      apply Nat.eqb_eq in E'. intros [= <-]. simpl. split; [done | lia].
  - intros id' e Hin. rewrite timer_task_app.
    apply Map_set_In in Hin as [[= -> ->] | Hin].
    + simpl. rewrite Hfresh. by rewrite Nat.eqb_refl.
    + by rewrite (I2 _ _ Hin).
  - by apply Map_set_NoDup.
  - intros q. rewrite I4. unfold timer_armed. rewrite timer_task_app.
    destruct (timer_task q (timers st)) as [t |] eqn:E; [done |].
    destruct (Nat.eqb q (nextHandle st)) eqn:E'.
    + apply Nat.eqb_eq in E'. subst q.
      by rewrite Nat.ltb_irrefl.
    + apply Nat.eqb_neq in E'.
      destruct (q <? nextHandle st)%nat eqn:L1, (q <? S (nextHandle st))%nat eqn:L2;
        try reflexivity.
      * apply Nat.ltb_lt in L1. apply Nat.ltb_ge in L2. lia.
      * apply Nat.ltb_ge in L1. apply Nat.ltb_lt in L2. lia.
Qed.

Lemma Inv_fold_failEntry (l : list (string * PendingEntry)) (st : Relay) :
  List.NoDup (map fst l) ->
  (forall kv, In kv l -> In kv (pending st)) ->
  Inv st -> Inv (fold_left failEntry l st).
Proof.
  revert st. induction l as [| [id e] l IH]; intros st Hnd Hin HI; simpl; [done |].
  apply List.NoDup_cons_iff in Hnd as [Hnotin Hnd].
  apply IH; [done | |].
  - intros kv Hkv. simpl. apply Map_delete_In. split.
    + intros Heq. apply Hnotin. simpl. rewrite <- Heq. by apply in_map.
    + apply Hin. by right.
  - rewrite failEntry_discharge. apply Inv_discharge; [| done].
    apply Hin. by left.
Qed.

Lemma Inv_socketClosed (socket : nat) (st : Relay) :
  Inv st -> Inv (socketClosed socket st).
Proof.
  intros HI. unfold socketClosed, onClose.
  set (st0 := set_sockets _ st).
  set (st1 := match activeSocket st0 with
              | Some s => if Nat.eqb s socket then set_activeSocket None st0 else st0
              | None => st0
              end).
  assert (H1 : Inv st1 /\ pending st1 = pending st).
  { subst st1 st0. cbn [activeSocket set_sockets].
    destruct (activeSocket st) as [s |]; [destruct (Nat.eqb s socket) |];
      (split; [by apply (Inv_frame st) | reflexivity]). }
  destruct H1 as [HI1 Hp1].
  apply Inv_fold_failEntry; [apply (inv_keys _ HI1) | auto | done].
Qed.

(** The local tools leave the table, the timers and the promises alone. *)
Definition same_table (st st' : Relay) : Prop :=
  timers st' = timers st /\ pending st' = pending st
  /\ settled st' = settled st /\ nextHandle st' = nextHandle st.

Lemma getEvents_same_table (params : JSON) (st : Relay) :
  same_table st (snd (getEvents params st)).
Proof.
  unfold getEvents. simpl. by destruct (is_true (prop "clear" params)).
Qed.

Lemma clearEvents_same_table (params : JSON) (st : Relay) :
  same_table st (snd (clearEvents params st)).
Proof.
  unfold clearEvents.
  destruct (as_string (prop "channel" params)) as [c |]; [| done].
  by destruct (negb (str_truthy (Some c))).
Qed.

Lemma joinChannel_same_table (channel : string) (st : Relay) :
  same_table st (snd (joinChannel channel st)).
Proof. done. Qed.

Lemma same_table_trans (a b c : Relay) :
  same_table a b -> same_table b c -> same_table a c.
Proof.
  intros (H1 & H2 & H3 & H4) (G1 & G2 & G3 & G4).
  repeat split; congruence.
Qed.

Lemma leaveChannel_same_table (channel : string) (clear : bool) (st : Relay) :
  same_table st (snd (leaveChannel channel clear st)).
Proof.
  unfold leaveChannel.
  set (st1 := if negb (String.eqb channel "default")
              then set_channels (Set_delete channel (channels st)) st else st).
  set (st2 := if clear
              then snd (clearEvents (JObj [("channel", JStr channel)]) st1) else st1).
  assert (H1 : same_table st st1).
  { subst st1. by destruct (negb (String.eqb channel "default")). }
  assert (H2 : same_table st1 st2).
  { subst st2. destruct clear; [apply clearEvents_same_table | done]. }
  cbn [snd].
  apply (same_table_trans st st2); [by apply (same_table_trans st st1) |].
  by destruct (String.eqb (activeChannel st2) channel).
Qed.

Lemma Inv_same_table (st st' : Relay) : same_table st st' -> Inv st -> Inv st'.
Proof. intros (H1 & H2 & H3 & H4). by apply Inv_frame. Qed.

Section Reachable.

Variable REQUEST_TIMEOUT_MS : Z.
Variable MAX_EVENTS : Z.

Lemma Inv_step (st : Relay) (i : Input) :
  Inv st -> Inv (step REQUEST_TIMEOUT_MS MAX_EVENTS st i).
Proof.
  intros HI. destruct i; simpl.
  - by apply (Inv_frame st).
  - unfold onMessage. destruct parsed as [message |]; [| done].
    destruct (negb (truthy message)); [done |].
    destruct (as_string (prop "type" message)) as [type |]; [| done].
    destruct (String.eqb type "response"); [by apply Inv_handleResponseMessage |].
    destruct (String.eqb type "event"); [by apply Inv_handleEventMessage | done].
  - by apply (Inv_frame st).
  - by apply Inv_socketClosed.
  - unfold httpPull. destruct (requestQueue st); [done |].
    by apply (Inv_frame st).
  - destruct parsed; simpl; [by apply Inv_handleResponseMessage | done].
  - destruct parsed; simpl; [by apply Inv_handleEventMessage | done].
  - by apply Inv_onTimeout.
  - by apply Inv_sendToPlugin.
  - apply (Inv_same_table st); [apply getEvents_same_table | done].
  - apply (Inv_same_table st); [apply clearEvents_same_table | done].
  - apply (Inv_same_table st); [apply joinChannel_same_table | done].
  - apply (Inv_same_table st); [apply leaveChannel_same_table | done].
Qed.

Lemma Inv_run (inputs : list Input) (st : Relay) :
  Inv st -> Inv (run REQUEST_TIMEOUT_MS MAX_EVENTS st inputs).
Proof.
  revert st. induction inputs as [| i inputs IH]; intros st HI; simpl; [done |].
  apply IH. by apply Inv_step.
Qed.

End Reachable.

(** ** Correlation table: what a step can do to a promise *)

Lemma settlements_of_app (p : nat) (l1 l2 : list (nat * Settlement)) :
  settlements_of p (l1 ++ l2) = settlements_of p l1 ++ settlements_of p l2.
Proof. unfold settlements_of. by rewrite List.filter_app, map_app. Qed.

(** A step allocates handles upwards, only appends to the settlement log,
    and never arms again a timer whose handle is allocated and disarmed. *)
Definition progresses (st st' : Relay) : Prop :=
  (nextHandle st <= nextHandle st')%nat
  /\ (exists extra, settled st' = settled st ++ extra)
  /\ (forall h, (h < nextHandle st)%nat ->
                timer_task h (timers st) = None -> timer_task h (timers st') = None).

Lemma progresses_refl (st : Relay) : progresses st st.
Proof. split; [lia |]. split; [exists []; by rewrite app_nil_r | auto]. Qed.

Lemma progresses_trans (a b c : Relay) :
  progresses a b -> progresses b c -> progresses a c.
Proof.
  intros (Hn1 & [x1 Hs1] & Ht1) (Hn2 & [x2 Hs2] & Ht2).
  split; [lia |]. split.
  - exists (x1 ++ x2). by rewrite Hs2, Hs1, <- app_assoc.
  - intros h Hlt Hh. apply Ht2; [lia | by apply Ht1].
Qed.

Lemma progresses_frame (st st' : Relay) :
  timers st' = timers st -> settled st' = settled st ->
  nextHandle st' = nextHandle st -> progresses st st'.
Proof.
  intros Ht Hs Hn. split; [lia |]. split.
  - exists []. by rewrite app_nil_r.
  - intros h _. by rewrite Ht.
Qed.

Lemma progresses_same_table (st st' : Relay) : same_table st st' -> progresses st st'.
Proof. intros (H1 & H2 & H3 & H4). by apply progresses_frame. Qed.

Lemma progresses_retire (h : nat) (id : string) (p : nat) (s : Settlement) (st : Relay) :
  progresses st (retire h id p s st).
Proof.
  split; [simpl; lia |]. split.
  - by exists [(p, s)].
  - intros h0 _ H0. simpl. rewrite timer_task_clear, H0. by destruct (Nat.eqb h0 h).
Qed.

Lemma progresses_handleResponseMessage (message : JSON) (st : Relay) :
  progresses st (handleResponseMessage message st).
Proof.
  destruct (handleResponseMessage_cases message st)
    as [-> | (id & e & s & _ & _ & _ & ->)]; [apply progresses_refl |].
  apply (progresses_retire (pe_timer e) id (pe_promise e) s st).
Qed.

Lemma progresses_handleEventMessage (C : Z) (freshId : string) (now : Z) (message : JSON)
    (override : option string) (st : Relay) :
  progresses st (handleEventMessage C freshId now message override st).
Proof.
  unfold handleEventMessage.
  destruct (negb (truthy message)); [apply progresses_refl |].
  destruct (as_string (prop "event" message)); [| apply progresses_refl].
  by apply progresses_frame.
Qed.

Lemma progresses_fold_failEntry (l : list (string * PendingEntry)) (st : Relay) :
  progresses st (fold_left failEntry l st).
Proof.
  destruct (fold_failEntry_fields l st) as (_ & Hs & _ & _ & _ & _ & _ & Hn & Ht & _).
  split; [lia |]. split; [eauto | auto].
Qed.

Lemma progresses_socketClosed (socket : nat) (st : Relay) :
  progresses st (socketClosed socket st).
Proof.
  unfold socketClosed, onClose.
  set (st0 := set_sockets _ st).
  set (st1 := match activeSocket st0 with
              | Some s => if Nat.eqb s socket then set_activeSocket None st0 else st0
              | None => st0
              end).
  apply (progresses_trans st st1); [| apply progresses_fold_failEntry].
  subst st1 st0. cbn [activeSocket set_sockets].
  destruct (activeSocket st) as [s |]; [destruct (Nat.eqb s socket) |];
    by apply progresses_frame.
Qed.

Lemma progresses_sendToPlugin (id method : string) (params : JSON) (st : Relay) :
  progresses st (fst (sendToPlugin id method params st)).
Proof.
  destruct (sendToPlugin_fields id method params st) as (_ & Hn & Ht & _ & Hs & _).
  split; [lia |]. split.
  - exists []. by rewrite app_nil_r.
  - intros h Hlt Hh. rewrite Ht, timer_task_app, Hh.
    destruct (Nat.eqb h (nextHandle st)) eqn:E; [| done].
    apply Nat.eqb_eq in E. lia.
Qed.

Lemma progresses_onTimeout (ms : Z) (h : nat) (st : Relay) :
  progresses st (onTimeout ms h st).
Proof.
  unfold onTimeout.
  destruct (timer_task h (timers st)) as [[id p] |]; [| apply progresses_refl].
  apply (progresses_retire h id p (Rejected (TimeoutAfter ms)) st).
Qed.

Lemma progresses_step (ms C : Z) (st : Relay) (i : Input) :
  progresses st (step ms C st i).
Proof.
  destruct i; simpl.
  - by apply progresses_frame.
  - unfold onMessage. destruct parsed as [message |]; [| apply progresses_refl].
    destruct (negb (truthy message)); [apply progresses_refl |].
    destruct (as_string (prop "type" message)) as [type |]; [| apply progresses_refl].
    destruct (String.eqb type "response"); [apply progresses_handleResponseMessage |].
    destruct (String.eqb type "event");
      [apply progresses_handleEventMessage | apply progresses_refl].
  - by apply progresses_frame.
  - apply progresses_socketClosed.
  - unfold httpPull. destruct (requestQueue st); [apply progresses_refl |].
    by apply progresses_frame.
  - destruct parsed; simpl;
      [apply progresses_handleResponseMessage | apply progresses_refl].
  - destruct parsed; simpl;
      [apply progresses_handleEventMessage | apply progresses_refl].
  - apply progresses_onTimeout.
  - apply progresses_sendToPlugin.
  - apply progresses_same_table, getEvents_same_table.
  - apply progresses_same_table, clearEvents_same_table.
  - apply progresses_same_table, joinChannel_same_table.
  - apply progresses_same_table, leaveChannel_same_table.
Qed.

Lemma progresses_run (ms C : Z) (inputs : list Input) (st : Relay) :
  progresses st (run ms C st inputs).
Proof.
  revert st. induction inputs as [| i inputs IH]; intros st; simpl.
  - apply progresses_refl.
  - eapply progresses_trans; [apply progresses_step | apply IH].
Qed.

(** After its timeout has expired, an allocated promise of a state that
    satisfies the invariant is disarmed and settled once, by the timeout if
    it was still armed. *)
Lemma onTimeout_settles (ms : Z) (p : nat) (st : Relay) :
  Inv st -> (p < nextHandle st)%nat ->
  timer_armed p (onTimeout ms p st) = false
  /\ settlements_of p (settled (onTimeout ms p st))
     = (if timer_armed p st
        then [Rejected (TimeoutAfter ms)]
        else settlements_of p (settled st))
  /\ settle_count p (settled (onTimeout ms p st)) = 1%nat.
Proof.
  intros HI Hlt.
  pose proof (inv_count st HI p) as Hc.
  apply Nat.ltb_lt in Hlt. rewrite Hlt in Hc.
  unfold onTimeout, timer_armed in *.
  destruct (timer_task p (timers st)) as [task |] eqn:E.
  - destruct (inv_timers st HI p task E) as [Hp _].
    unfold settlements_of, settle_count in *. simpl.
    rewrite timer_task_clear, Nat.eqb_refl.
    rewrite List.filter_app, map_app, length_app. simpl. rewrite Hp, Nat.eqb_refl.
    apply length_zero_iff_nil in Hc. rewrite Hc. simpl. done.
  - rewrite E. done.
Qed.

(** C1. Take any history of the relay, a call of [sendToPlugin] after it
    (promise [p]), and any continuation.
    - The settling functions of [p] have been called at most once; as long
      as they have not been called the timer of [p] is armed, and once
      they have been called no entry of [pending] refers to [p].
    - When the timer of [p] expires the count is exactly one, with a single
      settlement [s]: a resolution (success), a rejection by a reply or a
      disconnection (error), or the rejection by the timer itself (timeout),
      the latter exactly when [p] was still unsettled.
    - Whatever happens afterwards, the settlements of [p] stay [[s]]. *)
Theorem settled_exactly_once
    (REQUEST_TIMEOUT_MS MAX_EVENTS : Z)
    (before after : list Input) (id method : string) (params : JSON) :
  let st0 := run REQUEST_TIMEOUT_MS MAX_EVENTS initial before in
  let st1 := fst (sendToPlugin id method params st0) in
  let p := snd (sendToPlugin id method params st0) in
  let st2 := run REQUEST_TIMEOUT_MS MAX_EVENTS st1 after in
  let st3 := onTimeout REQUEST_TIMEOUT_MS p st2 in
  (settle_count p (settled st1) = 0%nat /\ timer_armed p st1 = true)
  /\ (settle_count p (settled st2) <= 1)%nat
  /\ (if timer_armed p st2
      then settle_count p (settled st2) = 0%nat
      else settle_count p (settled st2) = 1%nat
           /\ Forall (fun kv => pe_promise (snd kv) <> p) (pending st2))
  /\ exists s,
       settlements_of p (settled st3) = [s]
       /\ (if timer_armed p st2
           then s = Rejected (TimeoutAfter REQUEST_TIMEOUT_MS) /\ outcome s = Timeout
           else settlements_of p (settled st2) = [s])
       /\ forall more,
            settlements_of p
              (settled (run REQUEST_TIMEOUT_MS MAX_EVENTS st3 more)) = [s].
Proof.
  intros st0 st1 p st2 st3.
  assert (HI0 : Inv st0) by (apply Inv_run, Inv_initial).
  destruct (sendToPlugin_fields id method params st0) as (Hp & Hn1 & Ht1 & _ & Hs1 & _).
  fold st1 in Hn1, Ht1, Hs1. fold p in Hp.
  assert (HI1 : Inv st1) by (by apply Inv_sendToPlugin).
  assert (HI2 : Inv st2) by (by apply Inv_run).
  assert (Hlt2 : (p < nextHandle st2)%nat).
  { destruct (progresses_run REQUEST_TIMEOUT_MS MAX_EVENTS after st1) as (Hle & _).
    fold st2 in Hle. lia. }
  assert (Harmed1 : timer_armed p st1 = true).
  { unfold timer_armed. rewrite Ht1, timer_task_app, Hp, Nat.eqb_refl.
    by destruct (timer_task _ _). }
  pose proof (inv_count st1 HI1 p) as Hc1. rewrite Harmed1 in Hc1.
  pose proof (inv_count st2 HI2 p) as Hc2.
  pose proof Hlt2 as Hlt2b. apply Nat.ltb_lt in Hlt2b. rewrite Hlt2b in Hc2.
  destruct (onTimeout_settles REQUEST_TIMEOUT_MS p st2 HI2 Hlt2) as (Hd3 & Hs3 & Hc3).
  fold st3 in Hd3, Hs3, Hc3.
  assert (HI3 : Inv st3) by (by apply Inv_onTimeout).
  assert (Hlt3 : (p < nextHandle st3)%nat).
  { destruct (progresses_onTimeout REQUEST_TIMEOUT_MS p st2) as (Hle & _).
    fold st3 in Hle. lia. }
  split; [by split |]. split; [destruct (timer_armed p st2); lia |]. split.
  - destruct (timer_armed p st2) eqn:E; [done |]. split; [done |].
    rewrite Forall_forall. intros [id' e] Hin Heq. simpl in Heq.
    apply list_elem_of_In in Hin.
    pose proof (inv_pending st2 HI2 id' e Hin) as Htask.
    destruct (inv_timers st2 HI2 _ _ Htask) as [Hpe _]. simpl in Hpe.
    unfold timer_armed in E. rewrite <- Heq, Hpe, Htask in E. discriminate.
  - assert (Hone : exists s, settlements_of p (settled st3) = [s]).
    { rewrite <- settlements_of_length in Hc3.
      destruct (settlements_of p (settled st3)) as [| s [| s' l]]; try discriminate.
      by exists s. }
    destruct Hone as [s Hs]. exists s. split; [done |]. split.
    + rewrite Hs in Hs3. destruct (timer_armed p st2).
      * injection Hs3 as ->. by split.
      * by symmetry.
    + intros more.
      set (st4 := run REQUEST_TIMEOUT_MS MAX_EVENTS st3 more).
      assert (HI4 : Inv st4) by (by apply Inv_run).
      destruct (progresses_run REQUEST_TIMEOUT_MS MAX_EVENTS more st3)
        as (Hle & [extra Hextra] & Hdis).
      fold st4 in Hle, Hextra, Hdis.
      pose proof (inv_count st4 HI4 p) as Hc4.
      unfold timer_armed in Hc4, Hd3.
      rewrite Hdis in Hc4;
        [| done | by destruct (timer_task p (timers st3))].
      assert (Hlt4 : (p <? nextHandle st4)%nat = true) by (apply Nat.ltb_lt; lia).
      rewrite Hlt4 in Hc4.
      rewrite <- settlements_of_length, Hextra, settlements_of_app, Hs in Hc4.
      rewrite Hextra, settlements_of_app, Hs.
      simpl in Hc4. destruct (settlements_of p extra); [done | discriminate].
Qed.

(** ** Delivery channel: the polling queue *)

(** [n] successive [GET /pull] requests. *)
Fixpoint pulls (n : nat) (st : Relay) : Relay :=
  match n with
  | O => st
  | S n => pulls n (snd (httpPull st))
  end.

Lemma pulls_reaches (q : list QueuedRequest) (x : QueuedRequest) (st : Relay) :
  requestQueue st = q ++ [x] ->
  fst (httpPull (pulls (length q) st)) = (200%nat, Some x).
Proof.
  revert st. induction q as [| y q IH]; intros st Hq; simpl.
  - unfold httpPull. by rewrite Hq.
  - apply IH. unfold httpPull. rewrite Hq. reflexivity.
Qed.

Lemma Map_get_delete {V : Type} (k : string) (m : list (string * V)) :
  Map_get k (Map_delete k m) = None.
Proof.
  unfold Map_get.
  destruct (assoc k (Map_delete k m)) as [v |] eqn:E; [| done].
  apply assoc_In in E. apply Map_delete_In in E as [Hne _]. by destruct Hne.
Qed.

(** C10. In any reachable state without an open active socket, a forwarded
    call is appended to [requestQueue]; when its timeout then fires, the
    promise is rejected with the timeout error and the key leaves
    [pending], while [requestQueue] and the frames written are untouched:
    once the envelopes queued before it have been pulled, the next
    [GET /pull] answers 200 with the envelope of the timed-out call. *)
Theorem timeout_keeps_queued_envelope
    (REQUEST_TIMEOUT_MS MAX_EVENTS : Z)
    (history : list Input) (id method : string) (params : JSON) :
  let st := run REQUEST_TIMEOUT_MS MAX_EVENTS initial history in
  push_target st = None ->
  let payload := mkRequest id method params (activeChannel st) in
  let st1 := fst (sendToPlugin id method params st) in
  let p := snd (sendToPlugin id method params st) in
  let st2 := onTimeout REQUEST_TIMEOUT_MS p st1 in
  requestQueue st1 = requestQueue st ++ [payload]
  /\ settlements_of p (settled st2) = [Rejected (TimeoutAfter REQUEST_TIMEOUT_MS)]
  /\ pending st2 = Map_delete id (pending st1)
  /\ Map_get id (pending st2) = None
  /\ requestQueue st2 = requestQueue st1
  /\ wire st2 = wire st1
  /\ In payload (requestQueue st2)
  /\ fst (httpPull (pulls (length (requestQueue st)) st2)) = (200%nat, Some payload).
Proof.
  intros st Hnone payload st1 p st2.
  assert (HI : Inv st) by (apply Inv_run, Inv_initial).
  destruct (sendToPlugin_fields id method params st) as (Hp & Hn1 & Ht1 & Hp1 & Hs1 & Hq1).
  fold st1 in Hn1, Ht1, Hp1, Hs1, Hq1. fold p in Hp.
  specialize (Hq1 Hnone). fold payload in Hq1.
  assert (HI1 : Inv st1) by (by apply Inv_sendToPlugin).
  assert (Hfresh : timer_task p (timers st) = None).
  { destruct (timer_task p (timers st)) as [task |] eqn:E; [| done].
    destruct (inv_timers st HI _ _ E). lia. }
  assert (Htask : timer_task p (timers st1) = Some (mkTask id p)).
  { by rewrite Ht1, timer_task_app, Hfresh, Hp, Nat.eqb_refl. }
  destruct (onTimeout_settles REQUEST_TIMEOUT_MS p st1 HI1) as (_ & Hs2 & _); [lia |].
  fold st2 in Hs2. unfold timer_armed in Hs2. rewrite Htask in Hs2.
  assert (Hst2 : st2 = retire p id p (Rejected (TimeoutAfter REQUEST_TIMEOUT_MS)) st1).
  { subst st2. unfold onTimeout. by rewrite Htask. }
  assert (Hq2 : requestQueue st2 = requestQueue st1) by (by rewrite Hst2).
  split; [done |]. split; [done |].
  split; [by rewrite Hst2 |].
  split; [rewrite Hst2; apply Map_get_delete |].
  split; [done |]. split; [by rewrite Hst2 |]. split.
  - rewrite Hq2, Hq1. apply in_or_app. right. by left.
  - apply pulls_reaches. by rewrite Hq2.
Qed.

Lemma timeout_keeps_queued_envelope_witness :
  let payload := mkRequest "1700000000000-a" "get_selection" (JObj []) "default" in
  let st1 := fst (sendToPlugin "1700000000000-a" "get_selection" (JObj []) initial) in
  let st2 := onTimeout 15000 0 st1 in
  settlements_of 0 (settled st2) = [Rejected (TimeoutAfter 15000)]
  /\ pending st2 = []
  /\ fst (httpPull st2) = (200%nat, Some payload).
Proof.
  destruct (timeout_keeps_queued_envelope 15000 200 [] "1700000000000-a"
              "get_selection" (JObj []) eq_refl)
    as (_ & Hs & _ & _ & _ & _ & _ & Hpull).
  split; [exact Hs |]. split; [reflexivity | exact Hpull].
Defined.

(** ** Batch execution *)

(** The entries up to and including the first failed one. *)
Fixpoint upto_first_failure (es : list BatchEntry) : list BatchEntry :=
  match es with
  | [] => []
  | e :: es => if be_ok e then e :: upto_first_failure es else [e]
  end.

Lemma upto_first_failure_length (es : list BatchEntry) :
  (length (upto_first_failure es) <= length es)%nat.
Proof.
  induction es as [| e es IH]; simpl; [lia |].
  destruct (be_ok e); simpl; lia.
Qed.

Lemma upto_first_failure_prefix (es : list BatchEntry) :
  upto_first_failure es = take (length (upto_first_failure es)) es.
Proof.
  induction es as [| e es IH]; simpl; [done |].
  destruct (be_ok e); simpl; [by rewrite <- IH | done].
Qed.

Section BatchProperties.

Variable stringify : option JSON -> option string.
Variable trimmed_nonempty : string -> bool.
Variable awaitPlugin : string -> JSON -> Relay -> Relay * (string + option JSON).
Variable exportImageToFile : JSON -> Relay -> Relay * (string + option JSON).

(** One turn of the loop of [runBatchCalls]: the state after the entry
    [call] of index [i] has been handled, and the element pushed on
    [results]. *)
Definition runEntry (i : nat) (call : JSON) (st : Relay) : Relay * BatchEntry :=
  match (if truthy call then as_string (prop "name" call) else None) with
  | None => (st, mkBatchEntry i false None None (Some "Invalid call.name"))
  | Some name =>
      if String.eqb name "batch_calls"
      then (st, mkBatchEntry i false None None (Some "Nested batch_calls is not supported"))
      else
        match executeTool stringify trimmed_nonempty awaitPlugin exportImageToFile
                name (callArguments call) st with
        | (st, inr result) => (st, mkBatchEntry i true (Some name) (Some result) None)
        | (st, inl message) => (st, mkBatchEntry i false (Some name) None (Some message))
        end
  end.

(** The entries handled one after the other, each in the state the previous
    one left, from index [i] on. *)
Fixpoint runEntries (i : nat) (calls : list JSON) (st : Relay) : Relay * list BatchEntry :=
  match calls with
  | [] => (st, [])
  | call :: rest =>
      let '(st1, e) := runEntry i call st in
      let '(st2, es) := runEntries (S i) rest st1 in
      (st2, e :: es)
  end.

Lemma batchLoop_turn (stopOnError : bool) (i : nat) (call : JSON) (rest : list JSON)
    (results : list BatchEntry) (st : Relay) :
  batchLoop stringify trimmed_nonempty awaitPlugin exportImageToFile
    stopOnError i (call :: rest) results st
  = (if stopOnError && negb (be_ok (snd (runEntry i call st)))
     then (fst (runEntry i call st), results ++ [snd (runEntry i call st)])
     else batchLoop stringify trimmed_nonempty awaitPlugin exportImageToFile
            stopOnError (S i) rest (results ++ [snd (runEntry i call st)])
            (fst (runEntry i call st))).
Proof.
  simpl. unfold runEntry.
  destruct (if truthy call then as_string (prop "name" call) else None) as [name |].
  - destruct (String.eqb name "batch_calls").
    + by destruct stopOnError.
    + destruct (executeTool _ _ _ _ name (callArguments call) st) as [st1 [message | result]].
      * by destruct stopOnError.
      * simpl. by rewrite andb_false_r.
  - by destruct stopOnError.
Qed.

Lemma batchLoop_continue (i : nat) (calls : list JSON) (results : list BatchEntry) (st : Relay) :
  batchLoop stringify trimmed_nonempty awaitPlugin exportImageToFile false i calls results st
  = (fst (runEntries i calls st), results ++ snd (runEntries i calls st)).
Proof.
  revert i results st. induction calls as [| call rest IH]; intros i results st.
  - simpl. by rewrite app_nil_r.
  - rewrite batchLoop_turn. simpl. rewrite IH.
    destruct (runEntry i call st) as [st1 e]. simpl.
    destruct (runEntries (S i) rest st1) as [st2 es]. simpl.
    by rewrite <- app_assoc.
Qed.

Lemma batchLoop_stop (i : nat) (calls : list JSON) (results : list BatchEntry) (st : Relay) :
  let cut := upto_first_failure (snd (runEntries i calls st)) in
  batchLoop stringify trimmed_nonempty awaitPlugin exportImageToFile true i calls results st
  = (fst (runEntries i (take (length cut) calls) st), results ++ cut).
Proof.
  revert i results st. induction calls as [| call rest IH]; intros i results st.
  - simpl. by rewrite app_nil_r.
  - rewrite batchLoop_turn. simpl.
    destruct (runEntry i call st) as [st1 e] eqn:E1. simpl.
    specialize (IH (S i) (results ++ [e]) st1). simpl in IH.
    destruct (runEntries (S i) rest st1) as [st2 es] eqn:E2. simpl in *.
    destruct (be_ok e); simpl.
    + rewrite IH, E1.
      destruct (runEntries (S i) (take (length (upto_first_failure es)) rest) st1).
      simpl. by rewrite <- app_assoc.
    + by rewrite E1.
Qed.

Lemma runEntries_length (i : nat) (calls : list JSON) (st : Relay) :
  length (snd (runEntries i calls st)) = length calls.
Proof.
  revert i st. induction calls as [| call rest IH]; intros i st; simpl; [done |].
  destruct (runEntry i call st) as [st1 e].
  specialize (IH (S i) st1). destruct (runEntries (S i) rest st1). simpl in *. lia.
Qed.

Lemma runEntry_index (i : nat) (call : JSON) (st : Relay) :
  be_index (snd (runEntry i call st)) = i.
Proof.
  unfold runEntry.
  destruct (if truthy call then as_string (prop "name" call) else None) as [name |]; [| done].
  destruct (String.eqb name "batch_calls"); [done |].
  by destruct (executeTool _ _ _ _ name (callArguments call) st) as [st1 [? | ?]].
Qed.

Lemma runEntries_index (i : nat) (calls : list JSON) (st : Relay) :
  map be_index (snd (runEntries i calls st)) = seq i (length calls).
Proof.
  revert i st. induction calls as [| call rest IH]; intros i st; simpl; [done |].
  pose proof (runEntry_index i call st) as Hi.
  destruct (runEntry i call st) as [st1 e].
  specialize (IH (S i) st1). destruct (runEntries (S i) rest st1). simpl in *.
  by rewrite Hi, IH.
Qed.

Lemma runEntries_nested (i j : nat) (calls : list JSON) (call : JSON) (st : Relay) :
  calls !! j = Some call ->
  (if truthy call then as_string (prop "name" call) else None) = Some "batch_calls" ->
  snd (runEntries i calls st) !! j
  = Some (mkBatchEntry (i + j) false None None (Some "Nested batch_calls is not supported")).
Proof.
  revert i j st. induction calls as [| c rest IH]; intros i j st Hj Hname; [done |].
  simpl. destruct (runEntry i c st) as [st1 e] eqn:E1.
  specialize (IH (S i)).
  destruct j as [| j]; simpl in Hj.
  - injection Hj as ->. unfold runEntry in E1. rewrite Hname in E1. simpl in E1.
    injection E1 as <- <-.
    destruct (runEntries (S i) rest st) as [st2 es]. simpl.
    by rewrite Nat.add_0_r.
  - specialize (IH j st1 Hj Hname).
    destruct (runEntries (S i) rest st1) as [st2 es]. simpl in *.
    rewrite IH. do 2 f_equal. lia.
Qed.

(** C6. With [all] the entries obtained by handling the calls one after
    the other, each in the state left by the one before:
    - [stopOnError = false] returns [all], one entry per call, and ends in
      the state after the last call;
    - [stopOnError = true] returns [all] cut after its first failed entry
      and ends in the state after the calls it has handled; a batch whose
      first entry succeeds and second fails returns exactly these two;
    - entries carry indices 0, 1, 2, ...; a call named ["batch_calls"] is
      recorded as failed with ["Nested batch_calls is not supported"];
    - [total] is the number of calls and [returned] the number of entries. *)
Theorem batch_calls_sequential (calls : list JSON) (st : Relay) :
  let batch b :=
    runBatchCalls stringify trimmed_nonempty awaitPlugin exportImageToFile
      (JObj [("calls", JArr calls); ("stopOnError", JBool b)]) st in
  let all := snd (runEntries 0 calls st) in
  let cut := upto_first_failure all in
  batch false
  = (fst (runEntries 0 calls st), inr (mkBatchResult (length calls) (length calls) all))
  /\ batch true
     = (fst (runEntries 0 (take (length cut) calls) st),
        inr (mkBatchResult (length calls) (length cut) cut))
  /\ cut = take (length cut) all
  /\ map be_index all = seq 0 (length calls)
  /\ (forall j call,
        calls !! j = Some call ->
        (if truthy call then as_string (prop "name" call) else None) = Some "batch_calls" ->
        all !! j
        = Some (mkBatchEntry j false None None (Some "Nested batch_calls is not supported")))
  /\ (forall e0 e1 rest,
        all = e0 :: e1 :: rest -> be_ok e0 = true -> be_ok e1 = false ->
        cut = [e0; e1] /\ be_index e0 = 0%nat /\ be_index e1 = 1%nat).
Proof.
  intros batch all cut.
  pose proof (runEntries_length 0 calls st) as Hlen. fold all in Hlen.
  pose proof (runEntries_index 0 calls st) as Hidx. fold all in Hidx.
  split; [| split; [| split; [| split; [| split]]]].
  - subst batch. unfold runBatchCalls. simpl.
    rewrite batchLoop_continue. simpl. fold all. by rewrite Hlen.
  - subst batch. unfold runBatchCalls. simpl.
    rewrite batchLoop_stop. simpl. reflexivity.
  - apply upto_first_failure_prefix.
  - exact Hidx.
  - intros j call Hj Hname. subst all.
    by rewrite (runEntries_nested 0 j calls call st Hj Hname).
  - intros e0 e1 rest Hall H0 H1. subst cut. rewrite Hall in *. simpl.
    rewrite H0, H1. split; [done |].
    destruct calls as [| c0 [| c1 cs]]; simpl in Hidx; try discriminate.
    injection Hidx as -> ->. done.
Qed.

End BatchProperties.

(** A host for running batches: every forwarded call succeeds with [null]
    except [delete_node], which the host rejects. *)
Definition sample_host (method : string) (params : JSON) (st : Relay)
  : Relay * (string + option JSON) :=
  if String.eqb method "delete_node"
  then (st, inl "Node not found")
  else (st, inr (Some JNull)).

Definition sample_batch (calls : list JSON) (stopOnError : bool) : Relay * (string + BatchResult) :=
  runBatchCalls (fun _ => None) (fun s => negb (String.eqb s "")) sample_host
    (fun _ st => (st, inl "outputPath or dir+filename is required"))
    (JObj [("calls", JArr calls); ("stopOnError", JBool stopOnError)]) initial.

Definition call_of (name : string) : JSON := JObj [("name", JStr name)].

Lemma batch_calls_sequential_witness :
  sample_batch [call_of "get_selection"; call_of "delete_node"; call_of "get_selection"] true
  = (initial,
     inr (mkBatchResult 3 2
            [mkBatchEntry 0 true (Some "get_selection") (Some (RForwarded (Some JNull))) None;
             mkBatchEntry 1 false (Some "delete_node") None (Some "Node not found")]))
  /\ sample_batch [call_of "get_selection"; call_of "batch_calls"; call_of "join_channel"] false
     = (initial,
        inr (mkBatchResult 3 3
               [mkBatchEntry 0 true (Some "get_selection") (Some (RForwarded (Some JNull))) None;
                mkBatchEntry 1 false None None (Some "Nested batch_calls is not supported");
                mkBatchEntry 2 false (Some "join_channel") None
                  (Some "channel must be a non-empty string")])).
Proof.
  split.
  - destruct (batch_calls_sequential (fun _ => None) (fun s => negb (String.eqb s ""))
                sample_host (fun _ st => (st, inl "outputPath or dir+filename is required"))
                [call_of "get_selection"; call_of "delete_node"; call_of "get_selection"]
                initial) as (_ & Hstop & _).
    unfold sample_batch. rewrite Hstop. reflexivity.
  - destruct (batch_calls_sequential (fun _ => None) (fun s => negb (String.eqb s ""))
                sample_host (fun _ st => (st, inl "outputPath or dir+filename is required"))
                [call_of "get_selection"; call_of "batch_calls"; call_of "join_channel"]
                initial) as (Hall & _).
    unfold sample_batch. rewrite Hall. reflexivity.
Defined.

(** ** Runs of the relay *)

Definition reply_to (id : string) (result : JSON) : JSON :=
  JObj [("type", JStr "response"); ("id", JStr id); ("result", result)].

(** A reply that arrives in time resolves the call; the late expiry of its
    timer and the closure of the socket add nothing. *)
Example reply_then_nothing :
  settled (run 15000 200 initial
             [IConnect; ISend "1700000000000-a" "get_selection" (JObj []);
              IMessage 1 "1700000000001-b" 1700000000001
                (Some (reply_to "1700000000000-a" (JArr [])));
              ITimeout 0; IClose 1])
  = [(0%nat, Resolved (Some (JArr [])))].
Proof. reflexivity. Qed.

(** Two calls that drew the same correlation id: the reply settles the
    younger one, whose entry replaced the older one's; the older call is
    settled by its own timer. *)
Example colliding_ids :
  settled (run 15000 200 initial
             [IConnect; ISend "1700000000000-a" "get_selection" (JObj []);
              ISend "1700000000000-a" "get_document_info" (JObj []);
              IMessage 1 "1700000000001-b" 1700000000001
                (Some (reply_to "1700000000000-a" JNull));
              ITimeout 0; ITimeout 1])
  = [(1%nat, Resolved (Some JNull)); (0%nat, Rejected (TimeoutAfter 15000))].
Proof. reflexivity. Qed.

(** A reply whose id is not pending is dropped. *)
Example late_reply_dropped :
  settled (run 15000 200 initial
             [IConnect; ISend "1700000000000-a" "get_selection" (JObj []);
              ITimeout 0;
              IMessage 1 "1700000000001-b" 1700000000001
                (Some (reply_to "1700000000000-a" JNull))])
  = [(0%nat, Rejected (TimeoutAfter 15000))].
Proof. reflexivity. Qed.

(** * Further properties of the relay *)

(** ** Event queries: what is returned *)

(** The filter a query applies: the [channel] test, when a non-empty
    channel is given, and the [since] test, when a number is given. *)
Definition event_matches (params : JSON) (e : Event) : bool :=
  (match as_string (prop "channel" params) with
   | Some c => if String.eqb c "" then true else String.eqb (ev_channel e) c
   | None => true
   end)
  && (match as_number (prop "since" params) with
      | Some t => ev_timestamp e >=? t
      | None => true
      end).

(** The limit a query applies. *)
Definition effective_limit (params : JSON) (st : Relay) : Z :=
  match as_number (prop "limit" params) with
  | Some n => if n >? 0 then n else Z.of_nat (length (eventBuffer st))
  | None => Z.of_nat (length (eventBuffer st))
  end.

Lemma filter_filter {A : Type} (f g : A -> bool) (l : list A) :
  List.filter g (List.filter f l) = List.filter (fun x => f x && g x) l.
Proof.
  induction l as [| x l IH]; simpl; [done |].
  destruct (f x); simpl; [destruct (g x); by rewrite IH | done].
Qed.


Lemma In_drop {A : Type} (k : nat) (l : list A) (x : A) :
  In x (drop k l) -> In x l.
Proof.
  revert l. induction k as [| k IH]; intros [| y l]; simpl; auto.
Qed.

Lemma getEvents_events (params : JSON) (st : Relay) :
  er_events (fst (getEvents params st))
  = last_n (Z.to_nat (effective_limit params st))
      (List.filter (event_matches params) (eventBuffer st)).
Proof.
  unfold getEvents. cbn [fst er_events]. fold (effective_limit params st).
  set (limit := effective_limit params st).
  assert (Hm :
    match as_number (prop "since" params) with
    | Some t =>
        List.filter (fun event => ev_timestamp event >=? t)
          match as_string (prop "channel" params) with
          | Some c =>
              if str_truthy (as_string (prop "channel" params))
              then List.filter (fun event => String.eqb (ev_channel event) c) (eventBuffer st)
              else eventBuffer st
          | None => eventBuffer st
          end
    | None =>
        match as_string (prop "channel" params) with
        | Some c =>
            if str_truthy (as_string (prop "channel" params))
            then List.filter (fun event => String.eqb (ev_channel event) c) (eventBuffer st)
            else eventBuffer st
        | None => eventBuffer st
        end
    end = List.filter (event_matches params) (eventBuffer st)).
  { unfold event_matches.
    destruct (as_string (prop "channel" params)) as [c |]; simpl;
      [destruct (String.eqb c "") |];
      destruct (as_number (prop "since" params)) as [t |]; simpl;
      rewrite ?filter_filter;
      try (apply filter_ext_in; intros; by rewrite ?andb_true_r);
      try (symmetry; apply forallb_filter_id; by apply forallb_forall);
      try reflexivity.
    all: induction (eventBuffer st) as [| x l IH]; simpl; [done | by rewrite <- IH]. }
  rewrite Hm. set (m := List.filter _ _).
  unfold last_n.
  destruct (Z.ltb_spec limit (Z.of_nat (length m))) as [Hlt | Hge].
  - f_equal. assert (0 <= limit \/ limit < 0) as [H | H] by lia; [lia |].
    exfalso. subst limit. unfold effective_limit in H.
    destruct (as_number (prop "limit" params)) as [n |]; [| lia].
    destruct (Z.gtb_spec n 0); lia.
  - replace (length m - Z.to_nat limit)%nat with 0%nat by lia. reflexivity.
Qed.

(** X1. Every event a query returns is in the buffer, carries the requested
    channel when a non-empty one is given, and is not older than [since]
    when one is given. *)
Theorem getEvents_returns_only_matching (params : JSON) (st : Relay) (e : Event) :
  In e (er_events (fst (getEvents params st))) ->
  In e (eventBuffer st)
  /\ (forall c, as_string (prop "channel" params) = Some c -> c <> "" -> ev_channel e = c)
  /\ (forall t, as_number (prop "since" params) = Some t -> t <= ev_timestamp e).
Proof.
  rewrite getEvents_events. unfold last_n. intros Hin.
  apply In_drop in Hin.
  apply filter_In in Hin as [Hin Hm]. split; [done |].
  unfold event_matches in Hm. apply andb_true_iff in Hm as [Hc Ht]. split.
  - intros c Hch Hne. rewrite Hch in Hc. apply String.eqb_neq in Hne. rewrite Hne in Hc.
    by apply String.eqb_eq.
  - intros t Hs. rewrite Hs in Ht. lia.
Qed.

Definition three_event_relay : Relay :=
  set_eventBuffer
    [sample_event 10 "a"; sample_event 20 "b"; sample_event 30 "a"; sample_event 40 "a"]
    initial.

Lemma getEvents_returns_only_matching_witness :
  In (sample_event 30 "a") (eventBuffer three_event_relay)
  /\ ev_channel (sample_event 30 "a") = "a"
  /\ 20 <= ev_timestamp (sample_event 30 "a").
Proof.
  destruct (getEvents_returns_only_matching
              (JObj [("channel", JStr "a"); ("since", JNum 20); ("limit", JNum 1)])
              three_event_relay (sample_event 40 "a")) as (_ & _ & _).
  { vm_compute. by left. }
  destruct (getEvents_returns_only_matching
              (JObj [("channel", JStr "a"); ("since", JNum 20)])
              three_event_relay (sample_event 30 "a")) as (Hin & Hc & Ht).
  { vm_compute. by left. }
  split; [exact Hin |]. split; [by apply Hc | by apply Ht].
Defined.


(** ** Clearing events and counting them *)

(** The number of buffered events tagged [c]. *)
Definition events_on (c : string) (buffer : list Event) : nat :=
  length (List.filter (fun e => String.eqb (ev_channel e) c) buffer).

(** X3. [clearEvents] with a non-empty [channel] removes the events tagged
    with that channel and no other: the buffer keeps the events of the other
    channels in their order, [cleared] is the number of events that were
    tagged with the channel, and the answer repeats the channel. *)
Theorem clearEvents_scoped (params : JSON) (c : string) (st : Relay) :
  as_string (prop "channel" params) = Some c -> c <> "" ->
  let r := fst (clearEvents params st) in
  let st' := snd (clearEvents params st) in
  eventBuffer st'
  = List.filter (fun e => negb (String.eqb (ev_channel e) c)) (eventBuffer st)
  /\ cr_cleared r = events_on c (eventBuffer st)
  /\ (cr_cleared r + length (eventBuffer st') = length (eventBuffer st))%nat
  /\ cr_channel r = Some c
  /\ events_on c (eventBuffer st') = 0%nat
  /\ (forall c', c' <> c -> events_on c' (eventBuffer st') = events_on c' (eventBuffer st)).
Proof.
  intros Hc Hne. apply String.eqb_neq in Hne.
  unfold clearEvents. rewrite Hc. simpl. rewrite Hne. simpl.
  pose proof (filter_length (fun e => String.eqb (ev_channel e) c) (eventBuffer st)) as Hlen.
  unfold events_on.
  split; [done |]. split; [lia |]. split; [lia |]. split; [done |]. split.
  - rewrite filter_filter. rewrite filter_nothing; [done |].
    intros e _. by destruct (String.eqb (ev_channel e) c).
  - intros c' Hc'. rewrite filter_filter. f_equal. apply filter_ext_in.
    intros e _. destruct (String.eqb (ev_channel e) c) eqn:E; simpl; [| done].
    apply String.eqb_eq in E. rewrite E. symmetry. apply String.eqb_neq. congruence.
Qed.

Lemma clearEvents_scoped_witness :
  map ev_timestamp
    (eventBuffer (snd (clearEvents (JObj [("channel", JStr "a")]) three_event_relay)))
  = [20]
  /\ cr_cleared (fst (clearEvents (JObj [("channel", JStr "a")]) three_event_relay)) = 3%nat.
Proof.
  destruct (clearEvents_scoped (JObj [("channel", JStr "a")]) "a" three_event_relay)
    as (Hbuf & Hn & _); [reflexivity | discriminate |].
  split; [by rewrite Hbuf | by rewrite Hn].
Defined.

(** X4. [clearEvents] without a [channel] string, or with the empty string
    as [channel], empties the whole buffer; [cleared] is the former size and
    the answer has no channel. *)
Theorem clearEvents_unscoped (params : JSON) (st : Relay) :
  as_string (prop "channel" params) = None \/ as_string (prop "channel" params) = Some "" ->
  eventBuffer (snd (clearEvents params st)) = []
  /\ cr_cleared (fst (clearEvents params st)) = length (eventBuffer st)
  /\ cr_channel (fst (clearEvents params st)) = None.
Proof.
  intros [H | H]; unfold clearEvents; rewrite H; simpl; auto.
Qed.

Lemma clearEvents_unscoped_witness :
  eventBuffer (snd (clearEvents (JObj [("channel", JStr "")]) three_event_relay)) = []
  /\ cr_cleared (fst (clearEvents (JObj [("channel", JNum 7)]) three_event_relay)) = 4%nat.
Proof.
  split.
  - apply (clearEvents_unscoped (JObj [("channel", JStr "")]) three_event_relay).
    by right.
  - apply (clearEvents_unscoped (JObj [("channel", JNum 7)]) three_event_relay).
    by left.
Defined.



Lemma Set_delete_In (x y : string) (s : list string) :
  In y (Set_delete x s) <-> y <> x /\ In y s.
Proof.
  unfold Set_delete. rewrite filter_In, negb_true_iff, String.eqb_neq.
  split; intros [H1 H2]; split; auto.
Qed.

(** X6. [leaveChannel] on a label other than ["default"] (and not empty)
    removes the label from the known set and keeps every other label; with
    [clear] it drops the buffered events of that channel and keeps the
    others, without [clear] the buffer is untouched; the active channel
    changes only when it was the label, and then to ["default"]. *)
Theorem leaveChannel_effects (label : string) (clear : bool) (st : Relay) :
  label <> "default" -> label <> "" ->
  let st' := snd (leaveChannel label clear st) in
  ~ In label (channels st')
  /\ (forall x, x <> label -> (In x (channels st') <-> In x (channels st)))
  /\ eventBuffer st'
     = (if clear
        then List.filter (fun e => negb (String.eqb (ev_channel e) label)) (eventBuffer st)
        else eventBuffer st)
  /\ activeChannel st'
     = (if String.eqb (activeChannel st) label then "default" else activeChannel st)
  /\ fst (leaveChannel label clear st) = (activeChannel st', label).
Proof.
  intros Hd He st'. subst st'. unfold leaveChannel.
  apply String.eqb_neq in Hd. rewrite Hd. simpl.
  set (st1 := set_channels (Set_delete label (channels st)) st).
  assert (Hclear : clearEvents (JObj [("channel", JStr label)]) st1
                   = (mkClearResult
                        (length (eventBuffer st)
                         - length (List.filter
                                     (fun e => negb (String.eqb (ev_channel e) label))
                                     (eventBuffer st)))
                        (Some label),
                      set_eventBuffer
                        (List.filter (fun e => negb (String.eqb (ev_channel e) label))
                           (eventBuffer st)) st1)).
  { unfold clearEvents. simpl. apply String.eqb_neq in He. by rewrite He. }
  destruct clear; rewrite ?Hclear; simpl;
    destruct (String.eqb (activeChannel st) label); simpl;
    (split; [intros Hin; apply Set_delete_In in Hin; tauto |]);
    (split; [intros x Hx; rewrite Set_delete_In; tauto |]);
    repeat split.
Qed.

Lemma leaveChannel_effects_witness :
  channels (snd (leaveChannel "a" true (snd (joinChannel "a" three_event_relay))))
  = ["default"]
  /\ map ev_channel
       (eventBuffer (snd (leaveChannel "a" true (snd (joinChannel "a" three_event_relay)))))
     = ["b"]
  /\ activeChannel (snd (leaveChannel "a" true (snd (joinChannel "a" three_event_relay))))
     = "default".
Proof.
  destruct (leaveChannel_effects "a" true (snd (joinChannel "a" three_event_relay)))
    as (_ & _ & Hbuf & Hact & _); [discriminate | discriminate |].
  split; [reflexivity |]. split; [by rewrite Hbuf | by rewrite Hact].
Defined.

(** ** Invariants of the channel registry and of the event buffer *)

(** The close handler's loop touches neither the registry nor the buffer. *)
Lemma fold_failEntry_locals (l : list (string * PendingEntry)) (st : Relay) :
  channels (fold_left failEntry l st) = channels st
  /\ activeChannel (fold_left failEntry l st) = activeChannel st
  /\ eventBuffer (fold_left failEntry l st) = eventBuffer st.
Proof.
  revert st. induction l as [| kv l IH]; intros st; simpl; [done |].
  destruct (IH (failEntry st kv)) as (H1 & H2 & H3).
  rewrite H1, H2, H3. done.
Qed.

Lemma socketClosed_locals (socket : nat) (st : Relay) :
  channels (socketClosed socket st) = channels st
  /\ activeChannel (socketClosed socket st) = activeChannel st
  /\ eventBuffer (socketClosed socket st) = eventBuffer st.
Proof.
  unfold socketClosed, onClose.
  set (st0 := set_sockets _ st).
  set (st1 := match activeSocket st0 with
              | Some s => if Nat.eqb s socket then set_activeSocket None st0 else st0
              | None => st0
              end).
  destruct (fold_failEntry_locals (pending st1) st1) as (H1 & H2 & H3).
  rewrite H1, H2, H3. subst st1 st0. cbn [activeSocket set_sockets].
  destruct (activeSocket st) as [s |]; [destruct (Nat.eqb s socket) |]; done.
Qed.

Lemma handleResponseMessage_locals (message : JSON) (st : Relay) :
  channels (handleResponseMessage message st) = channels st
  /\ activeChannel (handleResponseMessage message st) = activeChannel st
  /\ eventBuffer (handleResponseMessage message st) = eventBuffer st.
Proof.
  destruct (handleResponseMessage_cases message st)
    as [-> | (id & e & s & _ & _ & _ & ->)]; done.
Qed.

Lemma handleEventMessage_registry (C : Z) (freshId : string) (now : Z) (message : JSON)
    (override : option string) (st : Relay) :
  channels (handleEventMessage C freshId now message override st) = channels st
  /\ activeChannel (handleEventMessage C freshId now message override st) = activeChannel st.
Proof.
  unfold handleEventMessage.
  destruct (negb (truthy message)); [done |].
  by destruct (as_string (prop "event" message)).
Qed.

Lemma handleEventMessage_bound (C : Z) (freshId : string) (now : Z) (message : JSON)
    (override : option string) (st : Relay) :
  0 <= C ->
  (length (eventBuffer st) <= Z.to_nat C)%nat ->
  (length (eventBuffer (handleEventMessage C freshId now message override st))
   <= Z.to_nat C)%nat.
Proof.
  intros HC Hlen. unfold handleEventMessage.
  destruct (negb (truthy message)); [done |].
  destruct (as_string (prop "event" message)); [| done].
  simpl. rewrite pushEvent_last_n by done. rewrite last_n_length. lia.
Qed.

(** The registry is well formed: ["default"] is known, the active channel
    is known, and no label is listed twice. *)
Definition registry_ok (st : Relay) : Prop :=
  In "default" (channels st)
  /\ In (activeChannel st) (channels st)
  /\ List.NoDup (channels st).

Lemma registry_ok_same (st st' : Relay) :
  channels st' = channels st /\ activeChannel st' = activeChannel st ->
  registry_ok st -> registry_ok st'.
Proof. intros [Hc Ha]. unfold registry_ok. by rewrite Hc, Ha. Qed.

Lemma Set_add_superset (x y : string) (s : list string) : In y s -> In y (Set_add x s).
Proof.
  unfold Set_add. destruct (Set_has x s); [done |].
  intros H. apply in_or_app. by left.
Qed.

Lemma Set_add_NoDup (x : string) (s : list string) :
  List.NoDup s -> List.NoDup (Set_add x s).
Proof.
  intros Hnd. unfold Set_add. destruct (Set_has x s) eqn:E; [done |].
  apply List.NoDup_app; [done | |].
  - constructor; [intros [] | constructor].
  - intros y Hy [<- | []]. apply Set_has_In in Hy. congruence.
Qed.

Lemma registry_ok_join (channel : string) (st : Relay) :
  registry_ok st -> registry_ok (snd (joinChannel channel st)).
Proof.
  intros (Hd & Ha & Hn). unfold registry_ok, joinChannel. simpl.
  split; [by apply Set_add_superset |].
  split; [apply Set_add_In | by apply Set_add_NoDup].
Qed.

Lemma leaveChannel_registry (channel : string) (clear : bool) (st : Relay) :
  let st' := snd (leaveChannel channel clear st) in
  channels st'
  = (if negb (String.eqb channel "default")
     then Set_delete channel (channels st) else channels st)
  /\ activeChannel st'
     = (if String.eqb (activeChannel st) channel then "default" else activeChannel st).
Proof.
  unfold leaveChannel.
  set (st1 := if negb (String.eqb channel "default")
              then set_channels (Set_delete channel (channels st)) st else st).
  set (st2 := if clear
              then snd (clearEvents (JObj [("channel", JStr channel)]) st1) else st1).
  assert (H1 : channels st1
               = (if negb (String.eqb channel "default")
                  then Set_delete channel (channels st) else channels st)
               /\ activeChannel st1 = activeChannel st).
  { subst st1. by destruct (negb (String.eqb channel "default")). }
  assert (H2 : channels st2 = channels st1 /\ activeChannel st2 = activeChannel st1).
  { subst st2. destruct clear; [| done]. unfold clearEvents. simpl.
    by destruct (negb (negb (String.eqb channel ""))). }
  destruct H1 as [H1c H1a], H2 as [H2c H2a].
  clearbody st2 st1. cbn [snd]. rewrite H2a, H1a.
  destruct (String.eqb (activeChannel st) channel);
    cbn [channels activeChannel set_activeChannel]; rewrite ?H2c, ?H2a, ?H1c, ?H1a; done.
Qed.

Lemma registry_ok_leave (channel : string) (clear : bool) (st : Relay) :
  registry_ok st -> registry_ok (snd (leaveChannel channel clear st)).
Proof.
  intros (Hd & Ha & Hn). unfold registry_ok.
  destruct (leaveChannel_registry channel clear st) as [-> ->].
  destruct (String.eqb channel "default") eqn:Ed; simpl.
  - split; [done |]. split; [| done].
    by destruct (String.eqb (activeChannel st) channel).
  - apply String.eqb_neq in Ed.
    split; [apply Set_delete_In; split; [congruence | done] |].
    split; [| by apply List.NoDup_filter].
    destruct (String.eqb (activeChannel st) channel) eqn:Ea.
    + apply Set_delete_In. split; [congruence | done].
    + apply String.eqb_neq in Ea. apply Set_delete_In. split; done.
Qed.

Lemma getEvents_registry (params : JSON) (st : Relay) :
  channels (snd (getEvents params st)) = channels st
  /\ activeChannel (snd (getEvents params st)) = activeChannel st.
Proof. unfold getEvents. simpl. by destruct (is_true (prop "clear" params)). Qed.

Lemma clearEvents_registry (params : JSON) (st : Relay) :
  channels (snd (clearEvents params st)) = channels st
  /\ activeChannel (snd (clearEvents params st)) = activeChannel st.
Proof.
  unfold clearEvents.
  destruct (as_string (prop "channel" params)) as [c |]; [| done].
  by destruct (negb (str_truthy (Some c))).
Qed.

Lemma clearEvents_shrinks (params : JSON) (st : Relay) :
  (length (eventBuffer (snd (clearEvents params st))) <= length (eventBuffer st))%nat.
Proof.
  unfold clearEvents.
  destruct (as_string (prop "channel" params)) as [c |]; [| simpl; lia].
  destruct (negb (str_truthy (Some c))); simpl; [lia | apply filter_length_le].
Qed.

Lemma leaveChannel_shrinks (channel : string) (clear : bool) (st : Relay) :
  (length (eventBuffer (snd (leaveChannel channel clear st))) <= length (eventBuffer st))%nat.
Proof.
  unfold leaveChannel.
  set (st1 := if negb (String.eqb channel "default")
              then set_channels (Set_delete channel (channels st)) st else st).
  assert (H1 : eventBuffer st1 = eventBuffer st).
  { subst st1. by destruct (negb (String.eqb channel "default")). }
  set (st2 := if clear
              then snd (clearEvents (JObj [("channel", JStr channel)]) st1) else st1).
  assert (H2 : (length (eventBuffer st2) <= length (eventBuffer st1))%nat).
  { subst st2. destruct clear; [apply clearEvents_shrinks | lia]. }
  clearbody st2 st1. rewrite H1 in H2. cbn [snd].
  destruct (String.eqb (activeChannel st2) channel);
    cbn [eventBuffer set_activeChannel]; lia.
Qed.

Section ReachableLocals.

Variable REQUEST_TIMEOUT_MS : Z.
Variable MAX_EVENTS : Z.

Lemma registry_ok_step (st : Relay) (i : Input) :
  registry_ok st -> registry_ok (step REQUEST_TIMEOUT_MS MAX_EVENTS st i).
Proof.
  intros Hok. destruct i; simpl.
  - by apply (registry_ok_same st).
  - unfold onMessage. destruct parsed as [message |]; [| done].
    destruct (negb (truthy message)); [done |].
    destruct (as_string (prop "type" message)) as [type |]; [| done].
    destruct (String.eqb type "response").
    + apply (registry_ok_same st); [| done].
      destruct (handleResponseMessage_locals message st) as (H1 & H2 & _). done.
    + destruct (String.eqb type "event"); [| done].
      apply (registry_ok_same st); [apply handleEventMessage_registry | done].
  - by apply (registry_ok_same st).
  - apply (registry_ok_same st); [| done].
    destruct (socketClosed_locals socket st) as (H1 & H2 & _). done.
  - unfold httpPull. destruct (requestQueue st); [done |].
    by apply (registry_ok_same st).
  - destruct parsed as [message |]; simpl; [| done].
    apply (registry_ok_same st); [| done].
    destruct (handleResponseMessage_locals message st) as (H1 & H2 & _). done.
  - destruct parsed as [message |]; simpl; [| done].
    apply (registry_ok_same st); [apply handleEventMessage_registry | done].
  - unfold onTimeout. destruct (timer_task handle (timers st)); [| done].
    by apply (registry_ok_same st).
  - apply (registry_ok_same st); [| done].
    unfold sendToPlugin.
    match goal with |- context [push_target ?s] => destruct (push_target s) end; done.
  - apply (registry_ok_same st); [apply getEvents_registry | done].
  - apply (registry_ok_same st); [apply clearEvents_registry | done].
  - by apply registry_ok_join.
  - by apply registry_ok_leave.
Qed.

(** X7. In every state the relay can reach, ["default"] is a known
    channel, the active channel is a known channel, and the known channels
    are listed without repetition. *)
Theorem registry_always_well_formed (inputs : list Input) :
  let st := run REQUEST_TIMEOUT_MS MAX_EVENTS initial inputs in
  In "default" (channels st)
  /\ In (activeChannel st) (channels st)
  /\ List.NoDup (channels st).
Proof.
  assert (H : forall st, registry_ok st ->
                         registry_ok (run REQUEST_TIMEOUT_MS MAX_EVENTS st inputs)).
  { induction inputs as [| i inputs IH]; intros st Hok; simpl; [done |].
    apply IH. by apply registry_ok_step. }
  apply H. split; [by left |]. split; [by left |].
  constructor; [intros [] | constructor].
Qed.

Lemma buffer_bound_step (st : Relay) (i : Input) :
  0 <= MAX_EVENTS ->
  (length (eventBuffer st) <= Z.to_nat MAX_EVENTS)%nat ->
  (length (eventBuffer (step REQUEST_TIMEOUT_MS MAX_EVENTS st i)) <= Z.to_nat MAX_EVENTS)%nat.
Proof.
  intros HC Hlen. destruct i; simpl.
  - done.
  - unfold onMessage. destruct parsed as [message |]; [| done].
    destruct (negb (truthy message)); [done |].
    destruct (as_string (prop "type" message)) as [type |]; [| done].
    destruct (String.eqb type "response").
    + destruct (handleResponseMessage_locals message st) as (_ & _ & ->). done.
    + destruct (String.eqb type "event"); [| done].
      by apply handleEventMessage_bound.
  - done.
  - destruct (socketClosed_locals socket st) as (_ & _ & ->). done.
  - unfold httpPull. by destruct (requestQueue st).
  - destruct parsed as [message |]; simpl; [| done].
    destruct (handleResponseMessage_locals message st) as (_ & _ & ->). done.
  - destruct parsed as [message |]; simpl; [| done].
    by apply handleEventMessage_bound.
  - unfold onTimeout. by destruct (timer_task handle (timers st)).
  - unfold sendToPlugin.
    match goal with |- context [push_target ?s] => destruct (push_target s) end; done.
  - unfold getEvents. simpl. destruct (is_true (prop "clear" params)); simpl; [lia | done].
  - eapply Nat.le_trans; [apply (clearEvents_shrinks params st) | done].
  - done.
  - eapply Nat.le_trans; [apply (leaveChannel_shrinks channel clear st) | done].
Qed.

(** X8. For a capacity [MAX_EVENTS >= 0], in every state the relay can
    reach the event buffer holds at most [MAX_EVENTS] events, whatever mix
    of inbound events, queries, clears and channel operations led there. *)
Theorem eventBuffer_always_bounded (inputs : list Input) :
  0 <= MAX_EVENTS ->
  (length (eventBuffer (run REQUEST_TIMEOUT_MS MAX_EVENTS initial inputs))
   <= Z.to_nat MAX_EVENTS)%nat.
Proof.
  intros HC.
  assert (H : forall st, (length (eventBuffer st) <= Z.to_nat MAX_EVENTS)%nat ->
                         (length (eventBuffer (run REQUEST_TIMEOUT_MS MAX_EVENTS st inputs))
                          <= Z.to_nat MAX_EVENTS)%nat).
  { induction inputs as [| i inputs IH]; intros st Hlen; simpl; [done |].
    apply IH. by apply buffer_bound_step. }
  apply H. simpl. lia.
Qed.

End ReachableLocals.

Definition event_frame (n : Z) : JSON :=
  JObj [("type", JStr "event"); ("event", JStr "selectionchange"); ("timestamp", JNum n)].

Lemma eventBuffer_always_bounded_witness :
  (length (eventBuffer
             (run 15000 2 initial
                [IConnect;
                 IMessage 1 "a" 1 (Some (event_frame 1));
                 IEvent "b" 2 (Some (event_frame 2));
                 IJoinChannel "design";
                 IMessage 1 "c" 3 (Some (event_frame 3));
                 IGetEvents (JObj [])]))
   <= 2)%nat.
Proof.
  apply (eventBuffer_always_bounded 15000 2
           [IConnect;
            IMessage 1 "a" 1 (Some (event_frame 1));
            IEvent "b" 2 (Some (event_frame 2));
            IJoinChannel "design";
            IMessage 1 "c" 3 (Some (event_frame 3));
            IGetEvents (JObj [])]).
  lia.
Defined.

(** ** Delivery channel: polling order and routing of a call *)

(** The answers to [n] successive [GET /pull] requests. *)
Fixpoint pull_answers (n : nat) (st : Relay) : list (nat * option QueuedRequest) :=
  match n with
  | O => []
  | S n => fst (httpPull st) :: pull_answers n (snd (httpPull st))
  end.

Lemma pull_answers_queue (q : list QueuedRequest) (st : Relay) :
  requestQueue st = q ->
  pull_answers (length q) st = map (fun rq => (200%nat, Some rq)) q
  /\ requestQueue (pulls (length q) st) = []
  /\ pending (pulls (length q) st) = pending st
  /\ settled (pulls (length q) st) = settled st
  /\ timers (pulls (length q) st) = timers st.
Proof.
  revert st. induction q as [| rq q IH]; intros st Hq.
  - simpl. by rewrite Hq.
  - assert (Hpull : httpPull st = ((200%nat, Some rq), set_requestQueue q st)).
    { unfold httpPull. by rewrite Hq. }
    cbn [length pull_answers pulls map]. rewrite Hpull. cbn [fst snd].
    destruct (IH (set_requestQueue q st)) as (H1 & H2 & H3 & H4 & H5); [done |].
    rewrite H1, H2, H3, H4, H5. done.
Qed.

(** X9. The polling queue is first in, first out: as many [GET /pull]
    requests as there are queued envelopes answer 200 with the envelopes in
    the order they were queued and leave the queue empty; the next one
    answers 204 and changes nothing.  Pulling never touches the correlation
    table, the timers or the promises. *)
Theorem pull_drains_queue_in_order (st : Relay) :
  let n := length (requestQueue st) in
  pull_answers n st = map (fun rq => (200%nat, Some rq)) (requestQueue st)
  /\ requestQueue (pulls n st) = []
  /\ httpPull (pulls n st) = ((204%nat, None), pulls n st)
  /\ pending (pulls n st) = pending st
  /\ settled (pulls n st) = settled st
  /\ timers (pulls n st) = timers st.
Proof.
  intros n. subst n.
  destruct (pull_answers_queue (requestQueue st) st eq_refl) as (H1 & H2 & H3 & H4 & H5).
  repeat split; try assumption.
  unfold httpPull. by rewrite H2.
Qed.

Lemma Map_get_set {V : Type} (k : string) (v : V) (m : list (string * V)) :
  Map_get k (Map_set k v m) = Some v.
Proof.
  unfold Map_get. induction m as [| [k' v'] m IH]; simpl.
  - by rewrite String.eqb_refl.
  - destruct (String.eqb k k') eqn:E; simpl; [by rewrite String.eqb_refl |].
    by rewrite E.
Qed.

Lemma Map_get_delete_ne {V : Type} (k k' : string) (m : list (string * V)) :
  k' <> k -> Map_get k' (Map_delete k m) = Map_get k' m.
Proof.
  intros Hne. unfold Map_get, Map_delete.
  induction m as [| [k0 v0] m IH]; simpl; [done |].
  destruct (String.eqb k k0) eqn:E; simpl.
  - apply String.eqb_eq in E. subst k0.
    apply String.eqb_neq in Hne. by rewrite Hne.
  - by rewrite IH.
Qed.

(** X10. [sendToPlugin] registers the call under its correlation id and
    hands the envelope, tagged with the active channel, to exactly one
    transport: it is written to the active socket when that socket is open,
    and appended to the polling queue otherwise, never both. *)
Theorem sendToPlugin_routes_once (id method : string) (params : JSON) (st : Relay) :
  let payload := mkRequest id method params (activeChannel st) in
  let st' := fst (sendToPlugin id method params st) in
  let p := snd (sendToPlugin id method params st) in
  Map_get id (pending st') = Some (mkEntry p p)
  /\ match push_target st with
     | Some s =>
         activeSocket st = Some s
         /\ sockets st !! s = Some OPEN
         /\ wire st' = wire st ++ [(s, FRequest payload)]
         /\ requestQueue st' = requestQueue st
     | None =>
         requestQueue st' = requestQueue st ++ [payload]
         /\ wire st' = wire st
     end.
Proof.
  intros payload st' p.
  destruct (sendToPlugin_fields id method params st) as (Hp & _ & _ & Hpend & _ & _).
  fold st' in Hpend. fold p in Hp.
  split; [rewrite Hpend, Hp; apply Map_get_set |].
  assert (Hpt : forall st0, activeSocket st0 = activeSocket st -> sockets st0 = sockets st ->
                            push_target st0 = push_target st).
  { intros st0 Ha Hk. unfold push_target. by rewrite Ha, Hk. }
  destruct (push_target st) as [s |] eqn:E.
  - assert (Hs : activeSocket st = Some s /\ sockets st !! s = Some OPEN).
    { unfold push_target in E.
      destruct (activeSocket st) as [s' |]; [| discriminate].
      destruct (sockets st !! s') as [[] |] eqn:E'; try discriminate.
      by injection E as <-. }
    destruct Hs as [Hs1 Hs2]. split; [done |]. split; [done |].
    subst st' payload. unfold sendToPlugin. cbv zeta.
    rewrite (Hpt _) by reflexivity. done.
  - subst st' payload. unfold sendToPlugin. cbv zeta.
    rewrite (Hpt _) by reflexivity. done.
Qed.

(** X11. The closure of the active socket switches delivery to the polling
    queue (a call forwarded next is queued, nothing is written), while the
    closure of any other socket leaves the delivery target as it was. *)
Theorem close_switches_to_polling (socket : nat) (id method : string) (params : JSON)
    (st : Relay) :
  let st' := socketClosed socket st in
  push_target st'
  = (if decide (activeSocket st = Some socket) then None else push_target st)
  /\ (if decide (activeSocket st = Some socket)
      then requestQueue (fst (sendToPlugin id method params st'))
           = requestQueue st ++ [mkRequest id method params (activeChannel st)]
           /\ wire (fst (sendToPlugin id method params st')) = wire st
      else True).
Proof.
  intros st'.
  destruct (socketClosed_fields socket st) as (_ & _ & Ha & Hq & Hk & _).
  fold st' in Ha, Hq, Hk.
  assert (Htarget : push_target st'
                    = if decide (activeSocket st = Some socket) then None else push_target st).
  { unfold push_target. rewrite Ha, Hk.
    case_decide as Hact; [done |].
    destruct (activeSocket st) as [s |]; [| done].
    rewrite lookup_insert_ne by congruence. done. }
  split; [done |].
  case_decide as Hact; [| done].
  pose proof (sendToPlugin_routes_once id method params st') as (_ & Hroute).
  rewrite Htarget in Hroute. destruct Hroute as [Hqueue Hwire].
  destruct (socketClosed_locals socket st) as (_ & Hchan & _). fold st' in Hchan.
  rewrite Hqueue, Hwire, Hq, Hchan. split; [done |].
  subst st'. unfold socketClosed, onClose.
  set (st0 := set_sockets _ st).
  set (st1 := match activeSocket st0 with
              | Some s => if Nat.eqb s socket then set_activeSocket None st0 else st0
              | None => st0
              end).
  destruct (fold_failEntry_fields (pending st1) st1) as (_ & _ & _ & _ & _ & _ & Hw & _).
  rewrite Hw. subst st1 st0. cbn [activeSocket set_sockets].
  destruct (activeSocket st) as [s |]; [destruct (Nat.eqb s socket) |]; done.
Qed.

(** ** Replies *)

Lemma handleResponseMessage_unknown (message : JSON) (st : Relay) :
  (forall id, as_string (prop "id" message) = Some id -> Map_get id (pending st) = None) ->
  handleResponseMessage message st = st.
Proof.
  intros H. unfold handleResponseMessage.
  destruct (negb (truthy message)); [done |].
  destruct (as_string (prop "id" message)) as [id |]; [| done].
  by rewrite (H id eq_refl).
Qed.

(** X12. A reply whose id is not in the correlation table (never issued,
    already answered, timed out or failed by a disconnection), or that has
    no string id at all, changes nothing; in particular a reply delivered
    twice acts once. *)
Theorem reply_without_pending_entry_is_dropped (message : JSON) (st : Relay) :
  ((forall id, as_string (prop "id" message) = Some id -> Map_get id (pending st) = None) ->
   handleResponseMessage message st = st)
  /\ handleResponseMessage message (handleResponseMessage message st)
     = handleResponseMessage message st.
Proof.
  split; [apply handleResponseMessage_unknown |].
  destruct (handleResponseMessage_cases message st)
    as [H | (id & e & s & Hid & _ & _ & ->)]; [by rewrite !H |].
  apply handleResponseMessage_unknown. intros id' Hid'.
  rewrite Hid in Hid'. injection Hid' as <-. apply Map_get_delete.
Qed.

Lemma reply_without_pending_entry_is_dropped_witness :
  handleResponseMessage (reply_to "1700000000009-z" JNull) two_calls_in_flight
  = two_calls_in_flight.
Proof.
  apply (proj1 (reply_without_pending_entry_is_dropped
                  (reply_to "1700000000009-z" JNull) two_calls_in_flight)).
  intros id [= <-]. reflexivity.
Defined.

(** X13. A reply whose id is in the correlation table removes that entry
    and no other, clears the entry's timer, and settles the entry's promise
    once: resolved with [message.result] when [message.error] is absent or
    falsy, rejected otherwise with [message.error.message], or with
    ["Plugin error"] when that is absent or falsy.  Queue, buffer and frames
    are untouched. *)
Theorem reply_settles_its_call (message : JSON) (id : string) (e : PendingEntry)
    (st : Relay) :
  as_string (prop "id" message) = Some id ->
  Map_get id (pending st) = Some e ->
  let st' := handleResponseMessage message st in
  pending st' = Map_delete id (pending st)
  /\ Map_get id (pending st') = None
  /\ (forall id', id' <> id -> Map_get id' (pending st') = Map_get id' (pending st))
  /\ timer_armed (pe_timer e) st' = false
  /\ settled st'
     = settled st
       ++ [(pe_promise e,
            if otruthy (prop "error" message)
            then Rejected (PluginError
                   (or_else (oprop "message" (prop "error" message)) (JStr "Plugin error")))
            else Resolved (prop "result" message))]
  /\ requestQueue st' = requestQueue st
  /\ eventBuffer st' = eventBuffer st
  /\ wire st' = wire st.
Proof.
  intros Hid Hget st'.
  assert (Htruthy : truthy message = true).
  { destruct message; simpl in Hid; try discriminate. reflexivity. }
  assert (Hst' : st' = discharge id e
                         (if otruthy (prop "error" message)
                          then Rejected (PluginError
                                 (or_else (oprop "message" (prop "error" message))
                                    (JStr "Plugin error")))
                          else Resolved (prop "result" message)) st).
  { subst st'. unfold handleResponseMessage. rewrite Htruthy, Hid, Hget. simpl.
    by destruct (otruthy (prop "error" message)). }
  rewrite Hst'. unfold discharge. simpl.
  split; [done |]. split; [apply Map_get_delete |].
  split; [intros id' Hne; by apply Map_get_delete_ne |].
  split; [| done].
  unfold timer_armed. simpl. rewrite timer_task_clear. by rewrite Nat.eqb_refl.
Qed.

Lemma reply_settles_its_call_witness :
  settled (handleResponseMessage
             (JObj [("id", JStr "1700000000001-b"); ("error", JObj [])])
             two_calls_in_flight)
  = [(1%nat, Rejected (PluginError (JStr "Plugin error")))]
  /\ map fst (pending (handleResponseMessage
                         (JObj [("id", JStr "1700000000001-b"); ("error", JObj [])])
                         two_calls_in_flight))
     = ["1700000000000-a"].
Proof.
  destruct (reply_settles_its_call
              (JObj [("id", JStr "1700000000001-b"); ("error", JObj [])])
              "1700000000001-b" (mkEntry 1 1) two_calls_in_flight eq_refl eq_refl)
    as (Hp & _ & _ & _ & Hs & _).
  split; [by rewrite Hs | by rewrite Hp].
Defined.

(** X14. No entry of the correlation table is orphaned: in every state the
    relay can reach, the keys of [pending] are distinct, and each entry has
    an unsettled promise and an armed timer of its own whose expiry removes
    the entry and rejects the promise with the timeout error. *)
Theorem pending_entries_never_leak
    (REQUEST_TIMEOUT_MS MAX_EVENTS : Z) (inputs : list Input)
    (id : string) (e : PendingEntry) :
  let st := run REQUEST_TIMEOUT_MS MAX_EVENTS initial inputs in
  In (id, e) (pending st) ->
  let st' := onTimeout REQUEST_TIMEOUT_MS (pe_timer e) st in
  List.NoDup (map fst (pending st))
  /\ Map_get id (pending st) = Some e
  /\ timer_armed (pe_timer e) st = true
  /\ settle_count (pe_promise e) (settled st) = 0%nat
  /\ pending st' = Map_delete id (pending st)
  /\ settled st' = settled st ++ [(pe_promise e, Rejected (TimeoutAfter REQUEST_TIMEOUT_MS))].
Proof.
  intros st Hin st'.
  assert (HI : Inv st) by (apply Inv_run, Inv_initial).
  pose proof (inv_pending st HI id e Hin) as Htask.
  destruct (inv_timers st HI _ _ Htask) as [Hp _]. simpl in Hp.
  pose proof (inv_count st HI (pe_promise e)) as Hc.
  unfold timer_armed in *. rewrite Hp, Htask in Hc.
  split; [apply (inv_keys st HI) |].
  split; [apply assoc_NoDup; [apply (inv_keys st HI) | done] |].
  rewrite Htask. split; [done |]. split; [by rewrite Hp |].
  subst st'. unfold onTimeout. rewrite Htask. simpl. done.
Qed.

Lemma pending_entries_never_leak_witness :
  pending (onTimeout 15000 1
             (run 15000 200 initial
                [IConnect; ISend "1700000000000-a" "get_selection" (JObj []);
                 ISend "1700000000001-b" "get_node_info" (JObj [])]))
  = [("1700000000000-a", mkEntry 0 0)].
Proof.
  destruct (pending_entries_never_leak 15000 200
              [IConnect; ISend "1700000000000-a" "get_selection" (JObj []);
               ISend "1700000000001-b" "get_node_info" (JObj [])]
              "1700000000001-b" (mkEntry 1 1)) as (_ & _ & _ & _ & Hp & _).
  { vm_compute. right. by left. }
  exact Hp.
Defined.

(** ** Snapshot diff: what is reported *)

(** A node that [indexNodes] files under [id]. *)
Definition node_with_id (nodes : list JSON) (id : string) (node : JSON) : Prop :=
  In node nodes /\ truthy node = true /\ as_string (prop "id" node) = Some id.

Definition index_step (m : list (string * JSON)) (node : JSON) : list (string * JSON) :=
  if truthy node
  then match as_string (prop "id" node) with
       | Some id => Map_set id node m
       | None => m
       end
  else m.

Lemma indexNodes_fold (nodes : list JSON) : indexNodes nodes = fold_left index_step nodes [].
Proof. reflexivity. Qed.

Lemma index_fold_sound (all nodes : list JSON) (m : list (string * JSON)) :
  (forall v, In v nodes -> In v all) ->
  (forall k v, In (k, v) m -> node_with_id all k v) ->
  forall k v, In (k, v) (fold_left index_step nodes m) -> node_with_id all k v.
Proof.
  revert m. induction nodes as [| node nodes IH]; intros m Hsub Hm; simpl; [done |].
  apply IH; [intros v Hv; apply Hsub; by right |].
  intros k v Hin. unfold index_step in Hin.
  destruct (truthy node) eqn:Et; [| by apply Hm].
  destruct (as_string (prop "id" node)) as [id |] eqn:Ei; [| by apply Hm].
  apply Map_set_In in Hin as [[= -> ->] | Hin]; [| by apply Hm].
  split; [apply Hsub; by left | done].
Qed.

Lemma indexNodes_sound (nodes : list JSON) (k : string) (v : JSON) :
  In (k, v) (indexNodes nodes) -> node_with_id nodes k v.
Proof.
  rewrite indexNodes_fold. apply index_fold_sound; [done | intros ? ? []].
Qed.

Lemma index_fold_keeps (nodes : list JSON) (m : list (string * JSON)) (k : string) :
  Map_has k m = true -> Map_has k (fold_left index_step nodes m) = true.
Proof.
  revert m. induction nodes as [| node nodes IH]; intros m Hm; simpl; [done |].
  apply IH. unfold index_step.
  destruct (truthy node); [| done].
  destruct (as_string (prop "id" node)) as [id |]; [| done].
  apply Map_has_keys. rewrite Map_set_keys. apply Map_has_keys in Hm.
  destruct (Map_has id m); [done | apply in_or_app; by left].
Qed.

Lemma indexNodes_complete (nodes : list JSON) (k : string) (v : JSON) :
  node_with_id nodes k v -> Map_has k (indexNodes nodes) = true.
Proof.
  rewrite indexNodes_fold. generalize (@nil (string * JSON)).
  induction nodes as [| node nodes IH]; intros m (Hin & Ht & Hid); [destruct Hin |].
  simpl. destruct Hin as [-> | Hin].
  - apply index_fold_keeps. unfold index_step. rewrite Ht, Hid.
    apply (Map_has_In k v). apply Map_set_In_new.
  - apply IH. by split.
Qed.

Lemma Map_has_false_none (nodes : list JSON) (k : string) :
  Map_has k (indexNodes nodes) = false ->
  forall v, In v nodes -> truthy v = true -> as_string (prop "id" v) <> Some k.
Proof.
  intros Hfalse v Hin Ht Hid.
  rewrite (indexNodes_complete nodes k v) in Hfalse; [discriminate | by split].
Qed.

(** X15. Every node reported in [added] is a node of the [after] snapshot
    with a string id that no node of the [before] snapshot carries, and
    every id of [after] that [before] lacks is reported by one of them;
    [removed] is the same with the two sides exchanged. *)
Theorem diff_added_removed_exact (stringify : option JSON -> option string) (params : JSON) :
  let beforeNodes := normalizeSnapshotInput (prop "before" params) in
  let afterNodes := normalizeSnapshotInput (prop "after" params) in
  let r := diffSnapshots stringify params in
  (forall n, In n (added r) ->
     exists id, node_with_id afterNodes id n
                /\ forall b, In b beforeNodes -> truthy b = true ->
                             as_string (prop "id" b) <> Some id)
  /\ (forall id a, node_with_id afterNodes id a ->
        (forall b, In b beforeNodes -> truthy b = true -> as_string (prop "id" b) <> Some id) ->
        exists n, In n (added r) /\ as_string (prop "id" n) = Some id)
  /\ (forall n, In n (removed r) ->
        exists id, node_with_id beforeNodes id n
                   /\ forall a, In a afterNodes -> truthy a = true ->
                                as_string (prop "id" a) <> Some id)
  /\ (forall id b, node_with_id beforeNodes id b ->
        (forall a, In a afterNodes -> truthy a = true -> as_string (prop "id" a) <> Some id) ->
        exists n, In n (removed r) /\ as_string (prop "id" n) = Some id)
  /\ addedCount r = length (added r)
  /\ removedCount r = length (removed r).
Proof.
  intros beforeNodes afterNodes r.
  assert (Hsound : forall (xs ys : list JSON) n,
    In n (map snd (List.filter (fun kv => negb (Map_has (fst kv) (indexNodes ys)))
                     (indexNodes xs))) ->
    exists id, node_with_id xs id n
               /\ forall b, In b ys -> truthy b = true -> as_string (prop "id" b) <> Some id).
  { intros xs ys n Hin. apply in_map_iff in Hin as ([k v] & <- & Hin).
    apply filter_In in Hin as [Hin Hno]. simpl in *.
    exists k. split; [by apply indexNodes_sound |].
    apply Map_has_false_none. by apply negb_true_iff. }
  assert (Hcomplete : forall (xs ys : list JSON) id a,
    node_with_id xs id a ->
    (forall b, In b ys -> truthy b = true -> as_string (prop "id" b) <> Some id) ->
    exists n,
      In n (map snd (List.filter (fun kv => negb (Map_has (fst kv) (indexNodes ys)))
                       (indexNodes xs)))
      /\ as_string (prop "id" n) = Some id).
  { intros xs ys id a Ha Hnone.
    pose proof (indexNodes_complete xs id a Ha) as Hhas.
    unfold Map_has in Hhas.
    destruct (assoc id (indexNodes xs)) as [v |] eqn:E; [| discriminate].
    apply assoc_In in E. exists v. split.
    - apply in_map_iff. exists (id, v). split; [done |].
      apply filter_In. split; [done |]. simpl. apply negb_true_iff.
      destruct (Map_has id (indexNodes ys)) eqn:Eh; [| done].
      apply Map_has_keys in Eh. apply in_map_iff in Eh as ([k b] & Hk & Hb).
      simpl in Hk. subst k. apply indexNodes_sound in Hb as (Hb1 & Hb2 & Hb3).
      by destruct (Hnone b).
    - by apply indexNodes_sound in E as (_ & _ & ?). }
  split; [apply Hsound |]. split; [apply Hcomplete |].
  split; [apply Hsound |]. split; [apply Hcomplete |]. done.
Qed.

Lemma diff_added_removed_exact_witness :
  let params :=
    JObj [("before", JArr [JObj [("id", JStr "1:1")]; JObj [("id", JStr "1:2")]]);
          ("after", JObj [("nodes", JArr [JObj [("id", JStr "1:2")];
                                           JObj [("id", JStr "1:3")]])])] in
  exists id, node_with_id (normalizeSnapshotInput (prop "after" params)) id
               (JObj [("id", JStr "1:3")])
             /\ id = "1:3".
Proof.
  intros params.
  destruct (diff_added_removed_exact (fun _ => None) params) as (Hadd & _).
  destruct (Hadd (JObj [("id", JStr "1:3")])) as (id & Hnode & _).
  { vm_compute. by left. }
  exists id. split; [exact Hnode |].
  destruct Hnode as (_ & _ & Hid). simpl in Hid. by injection Hid as <-.
Defined.

(** The ignore list [diffSnapshots] computes. *)
Definition ignoreFieldsOf (params : JSON) : list string :=
  match prop "ignoreFields" params with
  | Some (JArr items) => omap (fun item => as_string (Some item)) items
  | _ => ["children"]
  end.

Lemma text_differs_true (a b : option string) : text_differs a b = true -> a <> b.
Proof.
  destruct a as [x |], b as [y |]; simpl; try discriminate; try congruence.
  intros H [= ->]. by rewrite String.eqb_refl in H.
Qed.

Lemma changedFields_sound (stringify : option JSON -> option string)
    (ignoreFields : list string) (beforeNode afterNode : JSON)
    (k : string) (vb va : option JSON) :
  In (k, (vb, va)) (changedFields stringify ignoreFields beforeNode afterNode) ->
  existsb (String.eqb k) ignoreFields = false
  /\ vb = prop k beforeNode /\ va = prop k afterNode
  /\ stringify vb <> stringify va.
Proof.
  unfold changedFields.
  generalize (Set_of (Object_keys beforeNode ++ Object_keys afterNode)).
  assert (H : forall (keys : list string) (acc : list (string * (option JSON * option JSON))),
    (forall k vb va, In (k, (vb, va)) acc ->
       existsb (String.eqb k) ignoreFields = false
       /\ vb = prop k beforeNode /\ va = prop k afterNode
       /\ stringify vb <> stringify va) ->
    In (k, (vb, va))
      (fold_left
         (fun fields key =>
            if existsb (String.eqb key) ignoreFields then fields
            else if text_differs (stringify (prop key beforeNode))
                      (stringify (prop key afterNode))
                 then Map_set key (prop key beforeNode, prop key afterNode) fields
                 else fields) keys acc) ->
    existsb (String.eqb k) ignoreFields = false
    /\ vb = prop k beforeNode /\ va = prop k afterNode
    /\ stringify vb <> stringify va).
  { induction keys as [| key keys IH]; intros acc Hacc; simpl; [by apply Hacc |].
    apply IH. intros k' vb' va' Hin.
    destruct (existsb (String.eqb key) ignoreFields) eqn:Ei; [by apply Hacc |].
    destruct (text_differs _ _) eqn:Ed; [| by apply Hacc].
    apply Map_set_In in Hin as [[= -> -> ->] | Hin]; [| by apply Hacc].
    split; [done |]. split; [done |]. split; [done |]. by apply text_differs_true. }
  intros keys. apply H. intros ? ? ? [].
Qed.

Lemma changed_fold_sound (stringify : option JSON -> option string)
    (ignoreFields : list string) (afterMap : list (string * JSON))
    (l : list (string * JSON)) (acc : list Change) (c : Change) :
  In c
    (fold_left
       (fun changed kv =>
          match Map_get (fst kv) afterMap with
          | None => changed
          | Some afterNode =>
              if negb (truthy afterNode) then changed
              else if (0 <? length (changedFields stringify ignoreFields (snd kv) afterNode))%nat
                   then changed
                        ++ [mkChange (fst kv)
                              (changedFields stringify ignoreFields (snd kv) afterNode)]
                   else changed
          end) l acc) ->
  In c acc
  \/ exists k beforeNode afterNode,
       In (k, beforeNode) l /\ In (k, afterNode) afterMap
       /\ c = mkChange k (changedFields stringify ignoreFields beforeNode afterNode)
       /\ ch_fields c <> [].
Proof.
  revert acc. induction l as [| [k b] l IH]; intros acc Hin; simpl in Hin; [by left |].
  apply IH in Hin as [Hin | (k' & b' & a' & H1 & H2 & H3 & H4)].
  - destruct (Map_get k afterMap) as [a |] eqn:E; [| by left].
    destruct (negb (truthy a)); [by left |].
    destruct (0 <? length (changedFields stringify ignoreFields b a))%nat eqn:El; [| by left].
    apply in_app_or in Hin as [Hin | [<- | []]]; [by left |].
    right. exists k, b, a. split; [by left |]. split; [by apply assoc_In |].
    split; [done |]. simpl. intros Hnil. rewrite Hnil in El. discriminate.
  - right. exists k', b', a'. split; [by right | done].
Qed.

(** X16. Every entry of [changed] concerns an id carried by a node of each
    snapshot and has at least one field; every field it lists is outside
    the ignore list, is not [id], has the two nodes' values for that field
    as [before] and [after], and these two values serialize differently. *)
Theorem diff_changed_sound (stringify : option JSON -> option string) (params : JSON)
    (c : Change) :
  In c (changed (diffSnapshots stringify params)) ->
  exists beforeNode afterNode,
    node_with_id (normalizeSnapshotInput (prop "before" params)) (ch_id c) beforeNode
    /\ node_with_id (normalizeSnapshotInput (prop "after" params)) (ch_id c) afterNode
    /\ ch_fields c <> []
    /\ forall k vb va,
         In (k, (vb, va)) (ch_fields c) ->
         ~ In k (ignoreFieldsOf params)
         /\ k <> "id"
         /\ vb = prop k beforeNode /\ va = prop k afterNode
         /\ stringify vb <> stringify va.
Proof.
  unfold diffSnapshots. cbn [changed]. fold (ignoreFieldsOf params).
  intros Hin. apply changed_fold_sound in Hin as [[] | (k & b & a & Hb & Ha & -> & Hne)].
  apply indexNodes_sound in Hb. apply indexNodes_sound in Ha.
  exists b, a. simpl. split; [done |]. split; [done |]. split; [done |].
  intros key vb va Hf.
  apply changedFields_sound in Hf as (Hign & -> & -> & Hdiff).
  split.
  - intros Hk. apply not_true_iff_false in Hign. apply Hign.
    apply existsb_exists. exists key. split; [done | apply String.eqb_refl].
  - split; [| done]. intros ->.
    destruct Hb as (_ & _ & Hidb), Ha as (_ & _ & Hida).
    assert (Hsame : prop "id" b = prop "id" a).
    { destruct (prop "id" b) as [[] |], (prop "id" a) as [[] |];
        simpl in Hidb, Hida; try discriminate. congruence. }
    apply Hdiff. by rewrite Hsame.
Qed.

(** A serializer that tells integers apart, for running examples. *)
Definition sample_stringify (v : option JSON) : option string :=
  match v with
  | Some (JNum n) => Some (if Z.ltb n 0 then "-" else if Z.eqb n 0 then "0" else "+")
  | Some (JStr s) => Some s
  | Some _ => Some "?"
  | None => None
  end.

Lemma diff_changed_sound_witness :
  let params :=
    JObj [("before", JArr [JObj [("id", JStr "1"); ("x", JNum (-10)); ("children", JNum 0)]]);
          ("after", JArr [JObj [("id", JStr "1"); ("x", JNum 20); ("children", JNum 5)]])] in
  changed (diffSnapshots sample_stringify params)
  = [mkChange "1" [("x", (Some (JNum (-10)), Some (JNum 20)))]]
  /\ ~ In "x" (ignoreFieldsOf params).
Proof.
  intros params. split; [reflexivity |].
  destruct (diff_changed_sound sample_stringify params
              (mkChange "1" [("x", (Some (JNum (-10)), Some (JNum 20)))]))
    as (b & a & _ & _ & _ & Hf).
  { vm_compute. by left. }
  destruct (Hf "x" (Some (JNum (-10))) (Some (JNum 20))) as (Hign & _); [by left |].
  exact Hign.
Defined.

(** ** Tool dispatch *)

Section DispatchProperties.

Variable stringify : option JSON -> option string.
Variable trimmed_nonempty : string -> bool.
Variable awaitPlugin : string -> JSON -> Relay -> Relay * (string + option JSON).
Variable exportImageToFile : JSON -> Relay -> Relay * (string + option JSON).


(** The envelope the handler wraps an outcome of [executeTool] in. *)
Definition wrapOutcome (o : Relay * (string + ToolResult)) : Relay * CallToolResult :=
  (fst o,
   match snd o with
   | inl message => ErrorResult message
   | inr v => TextResult (VTool v)
   end).

(** X18. A tool called directly through the protocol handler behaves as the
    same tool called as a batch entry: for every tool name other than
    [batch_calls], [callTool] changes the state as [executeTool] does and
    answers with the text envelope of its result, or with the error
    envelope carrying the message of the error it throws.  Missing
    arguments count as [{}]. *)
Theorem callTool_agrees_with_executeTool (name : string) (args : JSON) (st : Relay) :
  name <> "batch_calls" -> truthy args = true ->
  callTool stringify trimmed_nonempty awaitPlugin exportImageToFile name (Some args) st
  = wrapOutcome
      (executeTool stringify trimmed_nonempty awaitPlugin exportImageToFile name args st)
  /\ callTool stringify trimmed_nonempty awaitPlugin exportImageToFile name None st
     = wrapOutcome
         (executeTool stringify trimmed_nonempty awaitPlugin exportImageToFile
            name (JObj []) st).
Proof.
  intros Hname Hargs.
  assert (H : forall a,
    callTool stringify trimmed_nonempty awaitPlugin exportImageToFile name
      (if truthy a then Some a else None) st
    = wrapOutcome
        (executeTool stringify trimmed_nonempty awaitPlugin exportImageToFile name
           (if truthy a then a else JObj []) st)).
  { intros a. unfold callTool, executeTool, wrapOutcome, channelArg.
    assert (Hor : or_else (if truthy a then Some a else None) (JObj [])
                  = if truthy a then a else JObj []).
    { unfold or_else. destruct (truthy a) eqn:E; [by rewrite E | done]. }
    rewrite Hor. set (args' := if truthy a then a else JObj []).
    destruct (String.eqb_spec name "get_events") as [-> | H1].
    { cbn. by destruct (getEvents args' st). }
    destruct (String.eqb_spec name "diff_snapshots") as [-> | H2]; [done |].
    destruct (String.eqb_spec name "export_image_to_file") as [-> | H3].
    { cbn. by destruct (exportImageToFile args' st) as [st' [m | v]]. }
    destruct (String.eqb_spec name "batch_calls") as [-> | H4]; [done |].
    destruct (String.eqb_spec name "clear_events") as [-> | H5].
    { cbn. by destruct (clearEvents args' st). }
    destruct (String.eqb_spec name "join_channel") as [-> | H6].
    { cbn. destruct (as_string (prop "channel" args')) as [c |]; [| done].
      by destruct (trimmed_nonempty c). }
    destruct (String.eqb_spec name "leave_channel") as [-> | H7].
    { cbn. destruct (as_string (prop "channel" args')) as [c |]; [| done].
      destruct (trimmed_nonempty c); [| done].
      by destruct (leaveChannel c (is_true (prop "clear" args')) st) as [[x y] st']. }
    destruct (String.eqb_spec name "list_channels") as [-> | H8]; [done |].
    by destruct (awaitPlugin name args' st) as [st' [m | v]]. }
  split.
  - specialize (H args). by rewrite Hargs in H.
  - specialize (H JNull). exact H.
Qed.

Lemma runEntry_well_formed (i : nat) (call : JSON) (st : Relay) :
  let e := snd (runEntry stringify trimmed_nonempty awaitPlugin exportImageToFile i call st) in
  if be_ok e
  then be_name e <> None /\ be_result e <> None /\ be_error e = None
  else be_result e = None /\ be_error e <> None.
Proof.
  unfold runEntry.
  destruct (if truthy call then as_string (prop "name" call) else None) as [name |]; [| done].
  destruct (String.eqb name "batch_calls"); [done |].
  by destruct (executeTool _ _ _ _ name (callArguments call) st) as [st1 [? | ?]].
Qed.

Lemma runEntries_well_formed (i : nat) (calls : list JSON) (st : Relay) (e : BatchEntry) :
  In e (snd (runEntries stringify trimmed_nonempty awaitPlugin exportImageToFile i calls st)) ->
  if be_ok e
  then be_name e <> None /\ be_result e <> None /\ be_error e = None
  else be_result e = None /\ be_error e <> None.
Proof.
  revert i st. induction calls as [| call rest IH]; intros i st; simpl; [intros [] |].
  pose proof (runEntry_well_formed i call st) as Hwf.
  destruct (runEntry _ _ _ _ i call st) as [st1 e1].
  specialize (IH (S i) st1).
  destruct (runEntries _ _ _ _ (S i) rest st1) as [st2 es]. simpl in *.
  intros [<- | Hin]; [done | by apply IH].
Qed.

Lemma runEntries_invalid (i j : nat) (calls : list JSON) (call : JSON) (st : Relay) :
  calls !! j = Some call ->
  (if truthy call then as_string (prop "name" call) else None) = None ->
  snd (runEntries stringify trimmed_nonempty awaitPlugin exportImageToFile i calls st) !! j
  = Some (mkBatchEntry (i + j) false None None (Some "Invalid call.name")).
Proof.
  revert i j st. induction calls as [| c rest IH]; intros i j st Hj Hname; [done |].
  simpl. destruct (runEntry _ _ _ _ i c st) as [st1 e] eqn:E1.
  specialize (IH (S i)).
  destruct j as [| j]; simpl in Hj.
  - injection Hj as ->. unfold runEntry in E1. rewrite Hname in E1.
    injection E1 as <- <-.
    destruct (runEntries _ _ _ _ (S i) rest st) as [st2 es]. simpl.
    by rewrite Nat.add_0_r.
  - specialize (IH j st1 Hj Hname).
    destruct (runEntries _ _ _ _ (S i) rest st1) as [st2 es]. simpl in *.
    rewrite IH. do 2 f_equal. lia.
Qed.

Lemma batchLoop_from_empty (stopOnError : bool) (calls : list JSON) (st : Relay) :
  let all := snd (runEntries stringify trimmed_nonempty awaitPlugin exportImageToFile
                    0 calls st) in
  exists n, (n <= length calls)%nat
    /\ snd (batchLoop stringify trimmed_nonempty awaitPlugin exportImageToFile
              stopOnError 0 calls [] st) = take n all.
Proof.
  intros all.
  pose proof (runEntries_length stringify trimmed_nonempty awaitPlugin exportImageToFile
                0 calls st) as Hlen. fold all in Hlen.
  destruct stopOnError.
  - rewrite batchLoop_stop. simpl. fold all.
    exists (length (upto_first_failure all)). split.
    + pose proof (upto_first_failure_length all). lia.
    + apply upto_first_failure_prefix.
  - rewrite batchLoop_continue. simpl. fold all.
    exists (length calls). split; [lia |].
    rewrite <- Hlen. by rewrite firstn_all.
Qed.

(** X19. [runBatchCalls] throws ["calls must be an array"], leaving the
    state as it was, when [calls] is not an array.  Otherwise it returns,
    for either value of [stopOnError]: [total] is the number of calls,
    [returned] the number of entries and never more than [total]; an entry
    marked ok has a name and a result and no error, an entry marked failed
    has an error and no result; and a call that is falsy or has no string
    [name] is recorded, when reached, as failed with ["Invalid call.name"]
    and without a name. *)
Theorem runBatchCalls_result_shape (params : JSON) (st : Relay) :
  let batch := runBatchCalls stringify trimmed_nonempty awaitPlugin exportImageToFile
                 params st in
  match as_array (prop "calls" params) with
  | None => batch = (st, inl "calls must be an array")
  | Some calls =>
      exists st' r,
        batch = (st', inr r)
        /\ br_total r = length calls
        /\ br_returned r = length (br_results r)
        /\ (br_returned r <= br_total r)%nat
        /\ (forall e, In e (br_results r) ->
              if be_ok e
              then be_name e <> None /\ be_result e <> None /\ be_error e = None
              else be_result e = None /\ be_error e <> None)
        /\ (forall j call e,
              calls !! j = Some call -> br_results r !! j = Some e ->
              (if truthy call then as_string (prop "name" call) else None) = None ->
              e = mkBatchEntry j false None None (Some "Invalid call.name"))
  end.
Proof.
  intros batch. subst batch. unfold runBatchCalls.
  destruct (as_array (prop "calls" params)) as [calls |]; [| done].
  set (stop := is_true (prop "stopOnError" params)).
  destruct (batchLoop_from_empty stop calls st) as (n & Hn & Hres).
  destruct (batchLoop _ _ _ _ stop 0 calls [] st) as [st' results]. simpl in Hres.
  set (all := snd (runEntries stringify trimmed_nonempty awaitPlugin exportImageToFile
                     0 calls st)) in *.
  exists st'. eexists. split; [reflexivity |]. simpl.
  split; [done |]. split; [done |]. split.
  - rewrite Hres, length_take. lia.
  - split.
    + intros e Hin. rewrite Hres in Hin.
      apply (runEntries_well_formed 0 calls st).
      fold all. apply list_elem_of_In. apply list_elem_of_In in Hin.
      by apply (subseteq_take n all).
    + intros j call e Hj He Hname. rewrite Hres in He.
      apply lookup_take_Some in He as [He _]. subst all.
      rewrite (runEntries_invalid 0 j calls call st Hj Hname) in He.
      by injection He as <-.
Qed.

End DispatchProperties.

(** ** File export *)

(** Whether a string contains a comma. *)
Fixpoint has_comma (s : string) : bool :=
  match s with
  | EmptyString => false
  | String c rest => Ascii.eqb c ","%char || has_comma rest
  end.

Lemma split_comma_nonempty (s : string) : split_comma s <> [].
Proof.
  destruct s as [| c rest]; simpl; [done |].
  destruct (Ascii.eqb c ","%char); [done |].
  by destruct (split_comma rest).
Qed.

Lemma split_comma_no_comma (s : string) :
  has_comma s = false -> split_comma s = [s].
Proof.
  induction s as [| c rest IH]; simpl; [done |].
  destruct (Ascii.eqb c ","%char); simpl; [discriminate |].
  intros H. by rewrite (IH H).
Qed.

Lemma split_comma_length (s : string) :
  (length (split_comma s) <? 2)%nat = negb (has_comma s).
Proof.
  induction s as [| c rest IH]; simpl; [done |].
  destruct (Ascii.eqb c ","%char); simpl.
  - pose proof (split_comma_nonempty rest). by destruct (split_comma rest).
  - destruct (split_comma rest) as [| part parts]; simpl in *; [done |]. exact IH.
Qed.

Lemma split_comma_app (prefix rest : string) :
  has_comma prefix = false ->
  split_comma (prefix ++ String ","%char rest)%string = prefix :: split_comma rest.
Proof.
  induction prefix as [| c prefix IH]; simpl; [done |].
  destruct (Ascii.eqb c ","%char); simpl; [discriminate |].
  intros H. by rewrite (IH H).
Qed.

Lemma assoc_filter_keys {V : Type} (P : string -> bool) (k : string)
    (l : list (string * V)) :
  assoc k (List.filter (fun kv => negb (P (fst kv))) l)
  = if P k then None else assoc k l.
Proof.
  induction l as [| [k' v] l IH]; simpl; [by destruct (P k) |].
  destruct (String.eqb k k') eqn:E.
  - apply String.eqb_eq in E. subst k'.
    destruct (P k) eqn:Ep; simpl; [exact IH |].
    by rewrite String.eqb_refl.
  - destruct (P k'); simpl; [exact IH |]. rewrite E. exact IH.
Qed.

Lemma exportParamsOf_prop (k : string) (fields : list (string * JSON)) :
  prop k (exportParamsOf (JObj fields))
  = if existsb (String.eqb k) path_keys then None else prop k (JObj fields).
Proof.
  apply (assoc_filter_keys (fun key => existsb (String.eqb key) path_keys)).
Qed.

Section ExportProperties.

Variable FS : Type.
Variable fs_mkdir : string -> FS -> string + FS.
Variable fs_writeFile : string -> list Byte.byte -> FS -> string + FS.
Variable path_join : string -> string -> string.
Variable path_dirname : string -> string.
Variable base64_decode : string -> list Byte.byte.
Variable awaitPlugin : string -> JSON -> Relay -> Relay * (string + option JSON).

(** X20. [exportImageToFile] rejects a call without usable output path
    before doing anything: when [outputPath] is not a string and [dir] or
    [filename] is not a string either, and also when [outputPath] is the
    empty string (even if [dir] and [filename] are given), it throws
    ["outputPath or dir+filename is required"]; no call is forwarded and
    the file system is not touched. *)
Theorem export_requires_output_path (params : JSON) (w : Relay * FS) :
  as_string (prop "outputPath" params) = Some ""
  \/ (as_string (prop "outputPath" params) = None
      /\ (as_string (prop "dir" params) = None \/ as_string (prop "filename" params) = None)) ->
  exportImageToFile FS fs_mkdir fs_writeFile path_join path_dirname base64_decode
    awaitPlugin params w
  = (w, inl "outputPath or dir+filename is required").
Proof.
  unfold exportImageToFile, resolveOutputPath.
  intros [H | [H [H' | H']]]; rewrite H; simpl; [done | by rewrite H' |].
  destruct (as_string (prop "dir" params)); [by rewrite H' | done].
Qed.

(** X21. Once the path is accepted, one call [export_node_as_image] is
    forwarded with the arguments minus [outputPath], [dir] and [filename].
    If it is rejected the error is passed on; if its result is falsy or has
    no string [dataUrl] the export throws ["export_node_as_image did not
    return dataUrl"]; if the [dataUrl] has no comma it throws ["Invalid
    dataUrl"].  In all three cases the file system is left untouched. *)
Theorem export_never_writes_without_data
    (params : JSON) (outputPath : string) (w : Relay * FS)
    (st' : Relay) (outcome : string + option JSON) :
  resolveOutputPath path_join params = Some outputPath -> outputPath <> "" ->
  awaitPlugin "export_node_as_image" (exportParamsOf params) (fst w) = (st', outcome) ->
  let r := exportImageToFile FS fs_mkdir fs_writeFile path_join path_dirname base64_decode
             awaitPlugin params w in
  (forall k, prop k (exportParamsOf params)
             = if existsb (String.eqb k) path_keys then None else prop k params)
  /\ match outcome with
     | inl message => r = ((st', snd w), inl message)
     | inr result =>
         match (if otruthy result then as_string (oprop "dataUrl" result) else None) with
         | None => r = ((st', snd w), inl "export_node_as_image did not return dataUrl")
         | Some dataUrl =>
             if has_comma dataUrl then True
             else r = ((st', snd w), inl "Invalid dataUrl")
         end
     end.
Proof.
  intros Hpath Hne Hcall r. split.
  - intros k. destruct params as [| | | | | fields];
      try (simpl; by destruct (existsb (String.eqb k) path_keys)).
    apply exportParamsOf_prop.
  - subst r. unfold exportImageToFile. rewrite Hpath.
    apply String.eqb_neq in Hne. rewrite Hne. cbv zeta. rewrite Hcall.
    destruct outcome as [message | result]; [done |].
    destruct (if otruthy result then as_string (oprop "dataUrl" result) else None)
      as [dataUrl |]; [| done].
    rewrite split_comma_length.
    by destruct (has_comma dataUrl).
Qed.

(** X22. When the forwarded call resolves with a [dataUrl] of the form
    [prefix,payload] (no comma in either part), the export creates the
    directory of the output path, writes there exactly the bytes decoded
    from [payload], and returns the path, the byte count and the [format]
    and [mime] of the result; if creating the directory fails nothing is
    written and the error is passed on. *)
Theorem export_writes_decoded_payload
    (params : JSON) (outputPath : string) (w : Relay * FS)
    (st' : Relay) (result : JSON) (prefix payload : string) :
  resolveOutputPath path_join params = Some outputPath -> outputPath <> "" ->
  awaitPlugin "export_node_as_image" (exportParamsOf params) (fst w)
  = (st', inr (Some result)) ->
  truthy result = true ->
  as_string (prop "dataUrl" result) = Some (prefix ++ String ","%char payload)%string ->
  has_comma prefix = false -> has_comma payload = false ->
  exportImageToFile FS fs_mkdir fs_writeFile path_join path_dirname base64_decode
    awaitPlugin params w
  = match fs_mkdir (path_dirname outputPath) (snd w) with
    | inl message => ((st', snd w), inl message)
    | inr fs1 =>
        match fs_writeFile outputPath (base64_decode payload) fs1 with
        | inl message => ((st', fs1), inl message)
        | inr fs2 =>
            ((st', fs2),
             inr (mkExportResult outputPath (length (base64_decode payload))
                    (prop "format" result) (prop "mime" result)))
        end
    end.
Proof.
  intros Hpath Hne Hcall Ht Hurl Hp Hq.
  unfold exportImageToFile. rewrite Hpath.
  apply String.eqb_neq in Hne. rewrite Hne. cbv zeta. rewrite Hcall.
  cbn [otruthy oprop]. rewrite Ht, Hurl.
  rewrite split_comma_app by done. rewrite (split_comma_no_comma payload Hq).
  reflexivity.
Qed.

End ExportProperties.

(** A file system that records what was written, for running examples. *)
Definition log_mkdir (dir : string) (fs : list (string * list Byte.byte))
  : string + list (string * list Byte.byte) := inr fs.

Definition log_writeFile (path : string) (bytes : list Byte.byte)
    (fs : list (string * list Byte.byte)) : string + list (string * list Byte.byte) :=
  inr (fs ++ [(path, bytes)]).

Definition sample_join (dir filename : string) : string :=
  (dir ++ String "/"%char filename)%string.

Definition sample_decode (text : string) : list Byte.byte :=
  map (fun _ => Byte.x00) (list_ascii_of_string text).

Definition sample_renderer (dataUrl : JSON) (method : string) (params : JSON) (st : Relay)
  : Relay * (string + option JSON) :=
  (st, inr (Some (JObj [("dataUrl", dataUrl); ("format", JStr "PNG");
                        ("mime", JStr "image/png")]))).

Definition sample_export (dataUrl : JSON) (params : JSON)
  : (Relay * list (string * list Byte.byte)) * (string + ExportResult) :=
  exportImageToFile (list (string * list Byte.byte)) log_mkdir log_writeFile
    sample_join (fun p => p) sample_decode (sample_renderer dataUrl) params (initial, []).

Lemma export_requires_output_path_witness :
  sample_export (JStr "data:image/png;base64,AAAA")
    (JObj [("outputPath", JStr ""); ("dir", JStr "out"); ("filename", JStr "a.png")])
  = ((initial, []), inl "outputPath or dir+filename is required").
Proof.
  apply (export_requires_output_path (list (string * list Byte.byte)) log_mkdir log_writeFile
           sample_join (fun p => p) sample_decode
           (sample_renderer (JStr "data:image/png;base64,AAAA"))
           (JObj [("outputPath", JStr ""); ("dir", JStr "out"); ("filename", JStr "a.png")])
           (initial, [])).
  by left.
Defined.

Lemma export_never_writes_without_data_witness :
  sample_export (JStr "AAAA")
    (JObj [("nodeId", JStr "1:2"); ("dir", JStr "out"); ("filename", JStr "a.png")])
  = ((initial, []), inl "Invalid dataUrl").
Proof.
  destruct (export_never_writes_without_data (list (string * list Byte.byte))
              log_mkdir log_writeFile sample_join (fun p => p) sample_decode
              (sample_renderer (JStr "AAAA"))
              (JObj [("nodeId", JStr "1:2"); ("dir", JStr "out"); ("filename", JStr "a.png")])
              "out/a.png" (initial, []) initial
              (inr (Some (JObj [("dataUrl", JStr "AAAA"); ("format", JStr "PNG");
                                ("mime", JStr "image/png")])))
              eq_refl ltac:(discriminate) eq_refl) as (_ & H).
  exact H.
Defined.

Lemma export_writes_decoded_payload_witness :
  sample_export (JStr "data:image/png;base64,AAAA")
    (JObj [("nodeId", JStr "1:2"); ("outputPath", JStr "out/a.png")])
  = ((initial, [("out/a.png", [Byte.x00; Byte.x00; Byte.x00; Byte.x00])]),
     inr (mkExportResult "out/a.png" 4 (Some (JStr "PNG")) (Some (JStr "image/png")))).
Proof.
  unfold sample_export.
  rewrite (export_writes_decoded_payload (list (string * list Byte.byte))
             log_mkdir log_writeFile sample_join (fun p => p) sample_decode
             (sample_renderer (JStr "data:image/png;base64,AAAA"))
             (JObj [("nodeId", JStr "1:2"); ("outputPath", JStr "out/a.png")])
             "out/a.png" (initial, []) initial
             (JObj [("dataUrl", JStr "data:image/png;base64,AAAA"); ("format", JStr "PNG");
                    ("mime", JStr "image/png")])
             "data:image/png;base64" "AAAA"
             eq_refl ltac:(discriminate) eq_refl eq_refl eq_refl eq_refl eq_refl).
  reflexivity.
Defined.

(** ** Inbound messages: socket path and polling path *)

(** X23. A parsed frame whose [type] is ["response"] has on the socket the
    effect that the same body has on [POST /push], and one whose [type] is
    ["event"] the effect the same body has on [POST /event].  A socket frame
    that does not parse, or has no string [type], or another [type], is
    ignored; a body that does not parse is answered 400 and ignored. *)
Theorem socket_and_http_paths_agree
    (MAX_EVENTS : Z) (freshId : string) (now : Z) (message : JSON) (st : Relay) :
  (as_string (prop "type" message) = Some "response" ->
   onMessage MAX_EVENTS freshId now (Some message) st = snd (httpPush (Some message) st)
   /\ fst (httpPush (Some message) st) = 200%nat)
  /\ (as_string (prop "type" message) = Some "event" ->
      onMessage MAX_EVENTS freshId now (Some message) st
      = snd (httpEvent MAX_EVENTS freshId now (Some message) st)
      /\ fst (httpEvent MAX_EVENTS freshId now (Some message) st) = 200%nat)
  /\ ((forall t, as_string (prop "type" message) = Some t ->
                 t <> "response" /\ t <> "event") ->
      onMessage MAX_EVENTS freshId now (Some message) st = st)
  /\ onMessage MAX_EVENTS freshId now None st = st
  /\ httpPush None st = (400%nat, st)
  /\ httpEvent MAX_EVENTS freshId now None st = (400%nat, st).
Proof.
  assert (Htruthy : forall t, as_string (prop "type" message) = Some t ->
                              truthy message = true).
  { intros t Ht. destruct message; simpl in Ht; try discriminate. reflexivity. }
  split; [| split; [| split]].
  - intros Ht. unfold onMessage. rewrite (Htruthy _ Ht), Ht. done.
  - intros Ht. unfold onMessage. rewrite (Htruthy _ Ht), Ht. done.
  - intros Hother. unfold onMessage.
    destruct (negb (truthy message)); [done |].
    destruct (as_string (prop "type" message)) as [t |]; [| done].
    destruct (Hother t eq_refl) as [H1 H2].
    apply String.eqb_neq in H1, H2. by rewrite H1, H2.
  - done.
Qed.

Lemma socket_and_http_paths_agree_witness :
  onMessage 200 "f" 5 (Some (reply_to "1700000000001-b" JNull)) two_calls_in_flight
  = snd (httpPush (Some (reply_to "1700000000001-b" JNull)) two_calls_in_flight)
  /\ onMessage 200 "f" 5 (Some (JObj [("id", JStr "1700000000001-b")])) two_calls_in_flight
     = two_calls_in_flight.
Proof.
  split.
  - apply (proj1 (socket_and_http_paths_agree 200 "f" 5
                    (reply_to "1700000000001-b" JNull) two_calls_in_flight)).
    reflexivity.
  - apply (proj1 (proj2 (proj2 (socket_and_http_paths_agree 200 "f" 5
                    (JObj [("id", JStr "1700000000001-b")]) two_calls_in_flight)))).
    intros t [=].
Defined.

(** X24. An inbound message without a string [event] (or a falsy message)
    is ignored.  Otherwise, for a capacity of at least one, the entry
    appended last has the fresh id, the event name, the payload of the
    message, and as timestamp the [timestamp] of the message when that is a
    number and the time of receipt otherwise; no other field of the relay
    changes. *)
Theorem event_message_validated
    (MAX_EVENTS : Z) (freshId : string) (now : Z) (message : JSON)
    (override : option string) (st : Relay) :
  let st' := handleEventMessage MAX_EVENTS freshId now message override st in
  match as_string (prop "event" message) with
  | None => st' = st
  | Some name =>
      1 <= MAX_EVENTS ->
      last (eventBuffer st')
      = Some {| ev_id := freshId;
                ev_event := name;
                ev_payload := prop "payload" message;
                ev_timestamp := match as_number (prop "timestamp" message) with
                                | Some t => t
                                | None => now
                                end;
                ev_channel := override_or override (activeChannel st) |}
      /\ st' = set_eventBuffer (eventBuffer st') st
  end.
Proof.
  intros st'. subst st'. unfold handleEventMessage.
  destruct (as_string (prop "event" message)) as [name |] eqn:E.
  - assert (Htruthy : truthy message = true).
    { destruct message; simpl in E; try discriminate. reflexivity. }
    rewrite Htruthy. simpl. intros HC. split; [by apply pushEvent_last | done].
  - by destruct (negb (truthy message)).
Qed.

Lemma event_message_validated_witness :
  map ev_timestamp
    (eventBuffer (handleEventMessage 200 "f" 1700000000005
                    (JObj [("event", JStr "selectionchange"); ("timestamp", JStr "soon")])
                    None initial))
  = [1700000000005]
  /\ handleEventMessage 200 "f" 1700000000005 (JObj [("event", JNum 3)]) None initial
     = initial.
Proof.
  split.
  - pose proof (event_message_validated 200 "f" 1700000000005
                  (JObj [("event", JStr "selectionchange"); ("timestamp", JStr "soon")])
                  None initial) as H.
    simpl in H. destruct H as [_ H]; [lia |]. rewrite H. reflexivity.
  - exact (event_message_validated 200 "f" 1700000000005 (JObj [("event", JNum 3)])
             None initial).
Defined.

(** ** Connections *)

(** The [ready] frames among the frames written. *)
Definition ready_frames (frames : list (nat * Frame)) : list (nat * nat) :=
  omap (fun f => match snd f with
                 | FReady connectionId => Some (fst f, connectionId)
                 | FRequest _ => None
                 end) frames.

(** The number of connections accepted in a history. *)
Definition connections (inputs : list Input) : nat :=
  length (List.filter (fun i => match i with IConnect => true | _ => false end) inputs).

Lemma ready_frames_app (a b : list (nat * Frame)) :
  ready_frames (a ++ b) = ready_frames a ++ ready_frames b.
Proof. unfold ready_frames. apply omap_app. Qed.

Lemma socketClosed_wire (socket : nat) (st : Relay) :
  socketId (socketClosed socket st) = socketId st
  /\ wire (socketClosed socket st) = wire st.
Proof.
  unfold socketClosed, onClose.
  set (st0 := set_sockets _ st).
  set (st1 := match activeSocket st0 with
              | Some s => if Nat.eqb s socket then set_activeSocket None st0 else st0
              | None => st0
              end).
  destruct (fold_failEntry_fields (pending st1) st1) as (_ & _ & _ & _ & _ & _ & Hw & _).
  assert (Hid : forall l s0, socketId (fold_left failEntry l s0) = socketId s0).
  { induction l as [| kv l IH]; intros s0; simpl; [done |]. by rewrite IH. }
  rewrite Hid, Hw. subst st1 st0. cbn [activeSocket set_sockets].
  destruct (activeSocket st) as [s |]; [destruct (Nat.eqb s socket) |]; done.
Qed.

Lemma wire_step (ms C : Z) (st : Relay) (i : Input) :
  socketId (step ms C st i)
  = (match i with IConnect => S (socketId st) | _ => socketId st end)
  /\ ready_frames (wire (step ms C st i))
     = ready_frames (wire st)
       ++ (match i with
           | IConnect => [(S (socketId st), S (socketId st))]
           | _ => []
           end)
  /\ match activeSocket (step ms C st i) with
     | Some s => activeSocket st = Some s \/ (i = IConnect /\ s = S (socketId st))
     | None => True
     end.
Proof.
  destruct i; simpl.
  - rewrite ready_frames_app. split; [done |]. split; [done |]. by right.
  - assert (H : socketId (onMessage C freshId now parsed st) = socketId st
                /\ wire (onMessage C freshId now parsed st) = wire st
                /\ activeSocket (onMessage C freshId now parsed st) = activeSocket st).
    { unfold onMessage. destruct parsed as [message |]; [| done].
      destruct (negb (truthy message)); [done |].
      destruct (as_string (prop "type" message)) as [type |]; [| done].
      destruct (String.eqb type "response").
      - destruct (handleResponseMessage_cases message st)
          as [-> | (id & e & s & _ & _ & _ & ->)]; done.
      - destruct (String.eqb type "event"); [| done].
        unfold handleEventMessage. destruct (negb (truthy message)); [done |].
        by destruct (as_string (prop "event" message)). }
    destruct H as (-> & -> & ->). rewrite app_nil_r.
    split; [done |]. split; [done |]. destruct (activeSocket st); [by left | done].
  - rewrite app_nil_r. split; [done |]. split; [done |].
    destruct (activeSocket st); [by left | done].
  - destruct (socketClosed_wire socket st) as [-> ->].
    destruct (socketClosed_fields socket st) as (_ & _ & -> & _).
    rewrite app_nil_r. split; [done |]. split; [done |].
    case_decide; [done |]. destruct (activeSocket st); [by left | done].
  - unfold httpPull. rewrite app_nil_r.
    destruct (requestQueue st); simpl; (split; [done |]); (split; [done |]);
      (destruct (activeSocket st); [by left | done]).
  - rewrite app_nil_r. destruct parsed as [message |]; simpl.
    + destruct (handleResponseMessage_cases message st)
        as [-> | (id & e & s & _ & _ & _ & ->)]; simpl;
        (split; [done |]); (split; [done |]);
        (destruct (activeSocket st); [by left | done]).
    + split; [done |]. split; [done |]. destruct (activeSocket st); [by left | done].
  - rewrite app_nil_r. destruct parsed as [message |]; simpl.
    + unfold handleEventMessage. destruct (negb (truthy message));
        [| destruct (as_string (prop "event" message))]; simpl;
        (split; [done |]); (split; [done |]);
        (destruct (activeSocket st); [by left | done]).
    + split; [done |]. split; [done |]. destruct (activeSocket st); [by left | done].
  - rewrite app_nil_r. unfold onTimeout.
    destruct (timer_task handle (timers st)); simpl;
      (split; [done |]); (split; [done |]);
      (destruct (activeSocket st); [by left | done]).
  - unfold sendToPlugin. cbv zeta.
    match goal with |- context [push_target ?s] => destruct (push_target s) end; simpl.
    + rewrite ready_frames_app. simpl.
      split; [done |]. split; [done |]. destruct (activeSocket st); [by left | done].
    + rewrite app_nil_r. split; [done |]. split; [done |].
      destruct (activeSocket st); [by left | done].
  - rewrite app_nil_r. unfold getEvents. simpl.
    destruct (is_true (prop "clear" params)); simpl;
      (split; [done |]); (split; [done |]);
      (destruct (activeSocket st); [by left | done]).
  - rewrite app_nil_r. unfold clearEvents.
    destruct (as_string (prop "channel" params)) as [c |];
      [destruct (negb (str_truthy (Some c))) |]; simpl;
      (split; [done |]); (split; [done |]);
      (destruct (activeSocket st); [by left | done]).
  - rewrite app_nil_r. split; [done |]. split; [done |].
    destruct (activeSocket st); [by left | done].
  - rewrite app_nil_r. unfold leaveChannel.
    destruct (negb (String.eqb channel "default")), clear; simpl;
      unfold clearEvents; simpl;
      repeat match goal with
             | |- context [if ?b then _ else _] => destruct b; simpl
             end;
      (split; [done |]); (split; [done |]);
      (destruct (activeSocket st); [by left | done]).
Qed.

Lemma is_connect_dec (i : Input) : i = IConnect \/ i <> IConnect.
Proof. destruct i; [by left | right; discriminate ..]. Qed.

(** X25. Connections are numbered 1, 2, 3, ... in the order they are
    accepted, and each is announced exactly once, on its own socket, by a
    [ready] frame carrying its number: in every reachable state the [ready]
    frames written are those of connections 1 to [socketId], in order,
    [socketId] is the number of connections accepted so far, and the active
    socket, if any, is one of them. *)
Theorem connections_announced_in_order
    (REQUEST_TIMEOUT_MS MAX_EVENTS : Z) (inputs : list Input) :
  let st := run REQUEST_TIMEOUT_MS MAX_EVENTS initial inputs in
  socketId st = connections inputs
  /\ ready_frames (wire st) = map (fun n => (n, n)) (seq 1 (connections inputs))
  /\ match activeSocket st with
     | Some s => (1 <= s <= connections inputs)%nat
     | None => True
     end.
Proof.
  assert (H : forall (st : Relay) (done_ : nat),
    socketId st = done_ ->
    ready_frames (wire st) = map (fun n => (n, n)) (seq 1 done_) ->
    match activeSocket st with Some s => (1 <= s <= done_)%nat | None => True end ->
    let st' := run REQUEST_TIMEOUT_MS MAX_EVENTS st inputs in
    socketId st' = (done_ + connections inputs)%nat
    /\ ready_frames (wire st')
       = map (fun n => (n, n)) (seq 1 (done_ + connections inputs))
    /\ match activeSocket st' with
       | Some s => (1 <= s <= done_ + connections inputs)%nat
       | None => True
       end).
  { induction inputs as [| i inputs IH]; intros st done_ Hid Hw Ha.
    - simpl. rewrite Nat.add_0_r. done.
    - destruct (wire_step REQUEST_TIMEOUT_MS MAX_EVENTS st i) as (Hid' & Hw' & Ha').
      set (st1 := step REQUEST_TIMEOUT_MS MAX_EVENTS st i) in *.
      change (run REQUEST_TIMEOUT_MS MAX_EVENTS st (i :: inputs))
        with (run REQUEST_TIMEOUT_MS MAX_EVENTS st1 inputs).
      assert (Hc : connections (i :: inputs)
                   = ((match i with IConnect => 1 | _ => 0 end) + connections inputs)%nat).
      { unfold connections. simpl. by destruct i. }
      rewrite Hc.
      destruct (is_connect_dec i) as [-> | Hnot].
      + replace (done_ + (1 + connections inputs))%nat
          with (S done_ + connections inputs)%nat by lia.
        apply IH.
        * rewrite Hid'. by rewrite Hid.
        * rewrite Hw', Hw, Hid. rewrite seq_S, map_app. done.
        * destruct (activeSocket st1) as [s |]; [| done].
          destruct Ha' as [Hs | [_ ->]]; [rewrite Hs in Ha; lia | lia].
      + assert (Hz : (match i with IConnect => 1 | _ => 0 end)%nat = 0%nat)
          by (by destruct i).
        rewrite Hz. simpl. apply IH.
        * rewrite Hid'. by destruct i.
        * rewrite Hw', Hw. destruct i; try by rewrite app_nil_r. by destruct Hnot.
        * destruct (activeSocket st1) as [s |]; [| done].
          destruct Ha' as [Hs | [-> _]]; [by rewrite Hs in Ha | by destruct Hnot]. }
  intros st. specialize (H initial 0%nat eq_refl eq_refl I). simpl in H. exact H.
Qed.

Lemma callTool_agrees_with_executeTool_witness :
  callTool (fun _ => None) (fun s => negb (String.eqb s "")) sample_host
    (fun _ st => (st, inl "outputPath or dir+filename is required"))
    "join_channel" (Some (JObj [("channel", JStr "")])) initial
  = (initial, ErrorResult "channel must be a non-empty string")
  /\ callTool (fun _ => None) (fun s => negb (String.eqb s "")) sample_host
       (fun _ st => (st, inl "outputPath or dir+filename is required"))
       "delete_node" None initial
     = (initial, ErrorResult "Node not found").
Proof.
  destruct (callTool_agrees_with_executeTool (fun _ => None)
              (fun s => negb (String.eqb s "")) sample_host
              (fun _ st => (st, inl "outputPath or dir+filename is required"))
              "join_channel" (JObj [("channel", JStr "")]) initial
              ltac:(discriminate) eq_refl) as [H1 _].
  destruct (callTool_agrees_with_executeTool (fun _ => None)
              (fun s => negb (String.eqb s "")) sample_host
              (fun _ st => (st, inl "outputPath or dir+filename is required"))
              "delete_node" (JObj []) initial
              ltac:(discriminate) eq_refl) as [_ H2].
  split; [rewrite H1 | rewrite H2]; reflexivity.
Defined.

Lemma runBatchCalls_result_shape_witness :
  runBatchCalls (fun _ => None) (fun s => negb (String.eqb s "")) sample_host
    (fun _ st => (st, inl "outputPath or dir+filename is required"))
    (JObj [("calls", JStr "get_selection")]) initial
  = (initial, inl "calls must be an array").
Proof.
  exact (runBatchCalls_result_shape (fun _ => None) (fun s => negb (String.eqb s ""))
           sample_host (fun _ st => (st, inl "outputPath or dir+filename is required"))
           (JObj [("calls", JStr "get_selection")]) initial).
Defined.

(** ** Host plugin: annotation arguments *)


